(** * Schema extraction and similarity grouping (utils/schema-utils.js)

    A shallow embedding of the schema utilities of the API metrics
    scripts: [extractSchemas], [groupBySchema], [updateGroupedSchema],
    [addNewSchema], [findSimilarSchema] and [convert2V3_2], together with
    the first two statements of [computeSizeMetrics]
    (structureAndDatamodelMetrics.js).

    The two libraries the module calls, [json-schema-compare] and
    [swagger2openapi], are not part of the repository: they are Section
    variables, and either may throw. *)

From Stdlib Require Import DecimalString.
From stdpp Require Import base option strings list sets.

Local Open Scope string_scope.
Local Open Scope list_scope.

(** ** JavaScript values *)

(** A JSON document as the scripts hold it in memory.  An object is the
    list of its own enumerable entries, in the order [Object.entries]
    yields them.  [undefined] is not a JSON value: a JavaScript value is an
    [option json], [None] standing for [undefined]. *)
#[local] Unset Elimination Schemes.
Inductive json : Type :=
  | JNull
  | JBool (b : bool)
  | JNum (n : Z)
  | JStr (s : string)
  | JArr (elems : list json)
  | JObj (fields : list (string * json)).
#[local] Set Elimination Schemes.

Abbreviation jsval := (option json).

(** Code running to a value, or throwing one. *)
Inductive outcome (A : Type) : Type :=
  | Ret (a : A)
  | Throw (e : jsval).
Arguments Ret {A} a.
Arguments Throw {A} e.

#[global] Instance outcome_ret : MRet outcome := λ A a, Ret a.
#[global] Instance outcome_bind : MBind outcome := λ A B f m,
  match m with
  | Ret a => f a
  | Throw e => Throw e
  end.
#[global] Instance outcome_fmap : FMap outcome := λ A B f m,
  match m with
  | Ret a => Ret (f a)
  | Throw e => Throw e
  end.

(** [try { body } catch (e) { handler e }] *)
Definition try_catch {A} (body : outcome A) (handler : jsval → outcome A) : outcome A :=
  match body with
  | Ret a => Ret a
  | Throw e => handler e
  end.

(** The error the runtime raises on a property read of [undefined] or
    [null], on [Object.entries(undefined)] and on destructuring [null]. It has
    no [options] property. *)
Definition TypeError : jsval := Some (JObj [("name", JStr "TypeError")]).

(** JavaScript truthiness. *)
Definition truthy (v : jsval) : bool :=
  match v with
  | None | Some JNull => false
  | Some (JBool b) => b
  | Some (JNum n) => negb (n =? 0)%Z
  | Some (JStr s) => negb (String.eqb s "")
  | Some (JArr _) | Some (JObj _) => true
  end.

Definition index_key (i : nat) : string :=
  NilEmpty.string_of_uint (Nat.to_uint i).

Fixpoint chars (s : string) : list json :=
  match s with
  | EmptyString => []
  | String c s' => JStr (String c EmptyString) :: chars s'
  end.

(** The own enumerable string-keyed entries of a value that is neither
    [undefined] nor [null]. *)
Definition own_entries (v : json) : list (string * json) :=
  match v with
  | JObj fields => fields
  | JArr elems => imap (λ i x, (index_key i, x)) elems
  | JStr s => imap (λ i x, (index_key i, x)) (chars s)
  | JNull | JBool _ | JNum _ => []
  end.

Fixpoint assoc (k : string) (l : list (string * json)) : jsval :=
  match l with
  | [] => None
  | (k', v) :: l' => if String.eqb k k' then Some v else assoc k l'
  end.

(** [v[k]] for a [v] that is neither [undefined] nor [null]; every key the
    module reads is either a fixed name that no prototype defines or a key
    that [Object.entries] returned. *)
Definition prop (v : json) (k : string) : jsval := assoc k (own_entries v).

(** [v.k]: throws on [undefined] and [null]. *)
Definition get (v : jsval) (k : string) : outcome jsval :=
  match v with
  | None | Some JNull => Throw TypeError
  | Some o => Ret (prop o k)
  end.

(** [v?.k] *)
Definition getopt (v : jsval) (k : string) : jsval :=
  match v with
  | None | Some JNull => None
  | Some o => prop o k
  end.

(** [Object.entries(v)] *)
Definition Object_entries (v : jsval) : outcome (list (string * json)) :=
  match v with
  | None | Some JNull => Throw TypeError
  | Some o => Ret (own_entries o)
  end.

(** ** Records of the module *)

(** One element of the array [extractSchemas] builds (lines 24-32). *)
Record item : Type := Item {
  code : string;
  path : string;
  method : string;
  res : jsval;
  req : jsval;
  parametersMethod : jsval;
  parametersPath : jsval
}.

(** The two values [processType] is called with, ["res"] and ["req"]; they
    serve both as the property of the item to read and as the tag stored in
    [message_type]. *)
Inductive msg_type : Type := Res | Req.

#[global] Instance msg_type_eq_dec : EqDecision msg_type.
Proof. solve_decision. Defined.

(** [item[type]] *)
Definition field (t : msg_type) (it : item) : jsval :=
  match t with
  | Res => res it
  | Req => req it
  end.

Record endpoint : Type := Endpoint {
  ep_method : string;
  ep_path : string;
  ep_code : string
}.

#[global] Instance endpoint_eq_dec : EqDecision endpoint.
Proof. solve_decision. Defined.

Record group : Type := Group {
  schema : json;
  endpoints : list endpoint;
  message_type : list msg_type
}.

(** ** Grouping *)

(** [i[type]?.content?.["application/json"]?.schema] *)
Definition body_schema (t : msg_type) (it : item) : jsval :=
  getopt (getopt (getopt (field t it) "content") "application/json") "schema".

(** [s.items || s], for a truthy [s] (lines 54 and 88). *)
Definition fragment (s : json) : json :=
  match prop s "items" with
  | Some i => if truthy (Some i) then i else s
  | None => s
  end.

(** The schema an item is grouped by; [JNull] stands in where the filter
    of [processType] would not have let the item through. *)
Definition currentSchema (t : msg_type) (it : item) : json :=
  match body_schema t it with
  | Some s => fragment s
  | None => JNull
  end.

Definition endpoint_of (it : item) : endpoint :=
  {| ep_method := method it; ep_path := path it; ep_code := code it |}.

(** The predicate of [endpoints.some] in line 78. *)
Definition same_endpoint (e1 e2 : endpoint) : bool :=
  String.eqb (ep_path e1) (ep_path e2)
  && String.eqb (ep_method e1) (ep_method e2)
  && String.eqb (ep_code e1) (ep_code e2).

(** Lines 76-84. *)
Definition updateGroupedSchema (it : item) (t : msg_type) (g : group) : group :=
  let e := endpoint_of it in
  let eps :=
    if existsb (λ e', same_endpoint e' e) (endpoints g)
    then endpoints g else endpoints g ++ [e] in
  let mts :=
    if bool_decide (t ∈ message_type g)
    then message_type g else message_type g ++ [t] in
  {| schema := schema g; endpoints := eps; message_type := mts |}.

(** Lines 86-93. *)
Definition addNewSchema (grouped : list group) (it : item) (t : msg_type) : list group :=
  grouped ++ [ {| schema := currentSchema t it;
                  endpoints := [endpoint_of it];
                  message_type := [t] |} ].

Section SchemaUtils.

(** [compare(a, b, { ignore: ["description"] })] of json-schema-compare. *)
Variable compare : json → json → outcome bool.

(** The array [Promise.all] resolves to in line 102: every callback has
    run, in order, when the first rejection is delivered. [None] is the
    [false] of the source. *)
Definition comparisons (sourceArray : list group) (destination : json)
  : outcome (list (option group)) :=
  mapM (λ source,
          b ← compare (schema source) destination;
          mret (if b : bool then Some source else None))
       sourceArray.

(** How one cell of the array built in line 102 relates to its group. *)
Definition cell_of (d : json) (g : group) (c : option group) : Prop :=
  ∃ b : bool, compare (schema g) d = Ret b ∧ c = (if b then Some g else None).

(** Lines 101-107. The group found is an element of [sourceArray] itself,
    mutated in place by the caller: the result carries its index. *)
Definition findSimilarSchema (sourceArray : list group) (destination : json)
  : outcome (option (nat * group)) :=
  cs ← comparisons sourceArray destination;
  mret (match list_find is_Some cs with
        | Some (i, Some g) => Some (i, g)
        | _ => None
        end).

(** The body of the loop of [processType] (lines 54-66): the new group
    list and what [console.error] printed. *)
Definition process_item (t : msg_type) (grouped : list group) (it : item)
  : list group * list jsval :=
  match findSimilarSchema grouped (currentSchema t it) with
  | Ret (Some (i, _)) => (alter (updateGroupedSchema it t) i grouped, [])
  | Ret None => (addNewSchema grouped it t, [])
  | Throw err => (grouped, [err])
  end.

(** The items the loop of line 53 visits. *)
Definition selected (t : msg_type) (array : list item) : list item :=
  filter (λ i, truthy (body_schema t i)) array.

Definition run_items (t : msg_type) (items : list item)
    (st : list group * list jsval) : list group * list jsval :=
  foldl (λ st it,
           let '(grouped', out) := process_item t st.1 it in
           (grouped', st.2 ++ out))
        st items.

(** Lines 52-68. *)
Definition processType (t : msg_type) (array : list item)
    (st : list group * list jsval) : list group * list jsval :=
  run_items t (selected t array) st.

(** Lines 48-74, with the console output. *)
Definition groupBySchema_run (array : list item) : list group * list jsval :=
  processType Req array (processType Res array ([], [])).

Definition groupBySchema (array : list item) : list group :=
  (groupBySchema_run array).1.

(** ** Conversion and extraction *)

(** [converter.convertObj(api, {})] of swagger2openapi: the value the
    promise resolves to, or the value it rejects with. *)
Variable convertObj : json → outcome jsval.

(** [axios.post("http://localhost:8080/api/convert", api)]: the response
    the promise resolves to, or the value it rejects with. *)
Variable post : json → outcome jsval.

(** Lines 114-126, the converter that line 14 no longer calls. *)
Definition convert2V3 (api : json) : outcome jsval :=
  try_catch
    (response ← post api; get response "data")
    (λ e, mret (Some api)).

(** Lines 134-148. *)
Definition convert2V3_2 (api : json) : outcome jsval :=
  try_catch
    (r ← convertObj api;
     openapi ← get r "openapi";
     _ ← get openapi "openapi";
     mret openapi)
    (λ e, options ← get e "options"; get options "openapi").

(** Lines 13-17: the document the paths are read from. *)
Definition normalize (derefApi : json) : outcome jsval :=
  marker ← get (Some derefApi) "openapi";
  if negb (truthy marker) then convert2V3_2 derefApi else mret (Some derefApi).

(** The callback of line 24, mapped over the responses of one operation. *)
Definition response_items (derefApi : jsval) (path method : string) (methodDetails : json)
  : outcome (list item) :=
  rs ← Object_entries (getopt (Some methodDetails) "responses");
  mapM (λ cr : string * json,
          pm ← get (Some methodDetails) "parameters";
          paths ← get derefApi "paths";
          pathItem ← get paths path;
          pp ← get pathItem "parameters";
          mret {| code := cr.1; path := path; method := method;
                  res := Some cr.2;
                  req := getopt (Some methodDetails) "requestBody";
                  parametersMethod := pm; parametersPath := pp |})
       rs.

(** The callback of line 20, for one entry of [paths]. *)
Definition path_items (derefApi : jsval) (pm : string * json) : outcome (list item) :=
  mes ← Object_entries (Some pm.2);
  @concat item <$>
    mapM (λ md : string * json, response_items derefApi pm.1 md.1 md.2)
         (filter (λ md : string * json, truthy (getopt (Some md.2) "responses")) mes).

(** Lines 20-34. *)
Definition harvest (derefApi : jsval) : outcome (list item) :=
  paths ← get derefApi "paths";
  pes ← Object_entries paths;
  @concat item <$> mapM (path_items derefApi) pes.

Record extracted : Type := Extracted {
  schemas : list item;
  converted : jsval
}.

(** Lines 10-41; [None] is the [null] of line 39. *)
Definition extractSchemas (derefApi : json) : option extracted :=
  match (spec ← normalize derefApi;
         schemas ← harvest spec;
         mret {| schemas := schemas; converted := spec |}) with
  | Ret r => Some r
  | Throw _ => None
  end.

(** Lines 93-94 of structureAndDatamodelMetrics.js: the group list
    [computeSizeMetrics] computes its schema metrics from. Destructuring
    [null] throws. *)
Definition computeSizeMetrics_groupedSchemas (openAPISpec : json) : outcome (list group) :=
  match extractSchemas openAPISpec with
  | None => Throw TypeError
  | Some r => Ret (groupBySchema (schemas r))
  end.

End SchemaUtils.

Arguments schemas {_}.
Arguments converted {_}.

(** ** Sample data *)

(** Syntactic equality of JSON values, field order included. *)
Fixpoint json_eqb (a b : json) : bool :=
  match a, b with
  | JNull, JNull => true
  | JBool x, JBool y => Bool.eqb x y
  | JNum x, JNum y => (x =? y)%Z
  | JStr x, JStr y => String.eqb x y
  | JArr xs, JArr ys =>
      (fix all2 (xs ys : list json) : bool :=
         match xs, ys with
         | [], [] => true
         | x :: xs', y :: ys' => json_eqb x y && all2 xs' ys'
         | _, _ => false
         end) xs ys
  | JObj xs, JObj ys =>
      (fix all2 (xs ys : list (string * json)) : bool :=
         match xs, ys with
         | [], [] => true
         | (k, x) :: xs', (k', y) :: ys' =>
             String.eqb k k' && json_eqb x y && all2 xs' ys'
         | _, _ => false
         end) xs ys
  | _, _ => false
  end.

(** A comparator that never throws and accepts syntactically equal
    fragments only; json-schema-compare agrees with it on the sample schemas
    below. *)
Definition strict_compare (a b : json) : outcome bool := Ret (json_eqb a b).

(** [{ content: { "application/json": { schema: s } } }] *)
Definition json_body (s : json) : json :=
  JObj [("content", JObj [("application/json", JObj [("schema", s)])])].

Definition type_schema (ty : string) : json := JObj [("type", JStr ty)].

Definition array_of (s : json) : json :=
  JObj [("type", JStr "array"); ("items", s)].

Definition sample_item (p m c : string) (rs rq : jsval) : item :=
  {| code := c; path := p; method := m; res := rs; req := rq;
     parametersMethod := None; parametersPath := None |}.

(** ** Notions the properties are stated with *)

(** No endpoint triple and no direction tag occurs twice in a group.
    Two [endpoint] records are equal exactly when their path, method and code
    are. *)
Definition group_ok (g : group) : Prop :=
  NoDup (endpoints g) ∧ NoDup (message_type g).

(** The group lists the loop of [processType] can hold: the empty list
    [groupBySchema] starts from, and what the loop body makes of a reachable
    list and an item that passed the filter of line 53. *)
Inductive reachable (compare : json → json → outcome bool) : list group → Prop :=
  | reachable_nil : reachable compare []
  | reachable_step (t : msg_type) (grouped : list group) (it : item) :
      reachable compare grouped →
      truthy (body_schema t it) = true →
      reachable compare (process_item compare t grouped it).1.

(** The occurrences of an item array in the order the two calls of
    [processType] visit them. *)
Definition work_list (array : list item) : list (msg_type * item) :=
  (pair Res <$> selected Res array) ++ (pair Req <$> selected Req array).

(** One turn of the loop on an occurrence of the work list. *)
Definition process_work (compare : json → json → outcome bool)
    (st : list group * list jsval) (w : msg_type * item) : list group * list jsval :=
  let '(grouped', out) := process_item compare w.1 st.1 w.2 in
  (grouped', st.2 ++ out).

(** Section 7 (b) of the specification in its own words: a comparison that
    throws counts as a non-equivalent pair. *)
Definition recovering (compare : json → json → outcome bool) (a b : json) : outcome bool :=
  match compare a b with
  | Ret r => Ret r
  | Throw _ => Ret false
  end.

(** Section 4.4, step 1 of the specification in its own words: the [items]
    sub-schema when the top-level [type] is array or an [items] field is
    present, the schema itself otherwise. *)
Definition spec_fragment (s : json) : jsval :=
  let is_array :=
    match prop s "type" with
    | Some (JStr ty) => String.eqb ty "array"
    | _ => false
    end in
  if is_array || bool_decide (is_Some (prop s "items"))
  then prop s "items" else Some s.

(** The number of endpoint entries over all the groups that carry the
    direction tag [t]. *)
Definition endpoints_in_direction (t : msg_type) (grouped : list group) : nat :=
  sum_list_with (λ g, length (endpoints g))
                (filter (λ g, t ∈ message_type g) grouped).

(** The number of endpoint entries over all the groups. *)
Definition endpoints_total (grouped : list group) : nat :=
  sum_list_with (λ g, length (endpoints g)) grouped.

(** [g'] is [g] after further merges: the same representative, no endpoint
    and no direction tag lost. *)
Definition extends (g g' : group) : Prop :=
  schema g' = schema g
  ∧ endpoints g ⊆ endpoints g'
  ∧ message_type g ⊆ message_type g'.

(** The group [g] accounts for the occurrence of [it] in direction [t]: it
    holds the occurrence's triple and its direction tag, and its representative
    is the occurrence's fragment or compared equivalent to it. *)
Definition accounts_for (compare : json → json → outcome bool)
    (t : msg_type) (it : item) (g : group) : Prop :=
  endpoint_of it ∈ endpoints g
  ∧ t ∈ message_type g
  ∧ (schema g = currentSchema t it
     ∨ compare (schema g) (currentSchema t it) = Ret true).

(** The endpoint entries of all the groups, group after group. *)
Definition all_endpoints (grouped : list group) : list endpoint :=
  concat (endpoints <$> grouped).

(** The normalized document has no [paths] mapping: the property is absent
    or [null] (or the document itself is [undefined] or [null]). *)
Definition lacks_paths (spec : jsval) : Prop :=
  getopt spec "paths" = None ∨ getopt spec "paths" = Some JNull.

(** What swagger2openapi rejects with for a document that is not Swagger
    2.0: an error object that carries no [options]. *)
Definition unsupported_version_error : jsval :=
  Some (JObj [("name", JStr "S2OError");
              ("message", JStr "Unsupported swagger/OpenAPI version")]).

(** A converter that rejects every document with that error. *)
Definition rejecting_convertObj (api : json) : outcome jsval :=
  Throw unsupported_version_error.

(** A conversion service that cannot be reached. *)
Definition failing_post (api : json) : outcome jsval :=
  Throw (Some (JObj [("code", JStr "ECONNREFUSED")])).

(** A converter that rejects with an error whose [options] carry the
    partial output [partial]. *)
Definition partial_convertObj (partial : json) (api : json) : outcome jsval :=
  Throw (Some (JObj [("name", JStr "S2OError");
                     ("options", JObj [("openapi", partial)])])).

(** A converter that resolves to options whose [openapi] is the document
    [out]. *)
Definition resolving_convertObj (out : json) (api : json) : outcome jsval :=
  Ret (Some (JObj [("openapi", out)])).

(** The item line 24 builds for the response entry [cr] of the operation
    [(p, m)] with details [md], [pp] being the parameters of the path. *)
Definition item_of (p m : string) (md : json) (pp : jsval) (cr : string * json) : item :=
  {| code := cr.1; path := p; method := m;
     res := Some cr.2;
     req := prop md "requestBody";
     parametersMethod := prop md "parameters";
     parametersPath := pp |}.

(** A document in the current version with one path that has one
    operation. *)
Definition one_operation_doc (p m : string) (md : json) : json :=
  JObj [("openapi", JStr "3.0.0"); ("paths", JObj [(p, JObj [(m, md)])])].


(** Two values have the same property names in the same order. *)
Definition same_keys (a b : json) : bool :=
  bool_decide ((own_entries a).*1 = (own_entries b).*1).

(** A comparator that never throws and accepts two fragments when they
    have the same property names in the same order. *)
Definition same_keys_compare (a b : json) : outcome bool := Ret (same_keys a b).

(** The entries of a truthy value, none for [undefined]. *)
Definition entries_of (v : jsval) : list (string * json) :=
  match v with
  | Some o => own_entries o
  | None => []
  end.

(** What the callback of line 20 yields for the entry [pm] of [paths] when
    no read throws: for each operation that has truthy [responses], in order,
    one item per entry of the responses. *)
Definition emitted_of_path (pm : string * json) : list item :=
  filter (λ md : string * json, truthy (getopt (Some md.2) "responses"))
         (own_entries pm.2)
  ≫= λ md, item_of pm.1 md.1 md.2 (prop pm.2 "parameters")
             <$> entries_of (getopt (Some md.2) "responses").

Definition emitted (paths : json) : list item :=
  own_entries paths ≫= emitted_of_path.

(** The property names are pairwise distinct at the three levels the
    harvest walks, as they are in every JavaScript object: the paths, the
    methods of a path and the status codes of an operation. *)
Definition distinct_keys (paths : json) : Prop :=
  NoDup (own_entries paths).*1
  ∧ Forall (λ pm : string * json,
              NoDup (own_entries pm.2).*1
              ∧ Forall (λ md : string * json,
                          NoDup (entries_of (getopt (Some md.2) "responses")).*1)
                       (own_entries pm.2))
           (own_entries paths).

(** ** Size metrics (structureAndDatamodelMetrics.js) *)

Definition HTTP_METHODS : list string :=
  ["get"; "put"; "post"; "delete"; "options"; "head"; "patch"; "trace"].

Definition lower_char (c : Ascii.ascii) : Ascii.ascii :=
  let n := Ascii.nat_of_ascii c in
  if (65 <=? n)%nat && (n <=? 90)%nat then Ascii.ascii_of_nat (n + 32) else c.

(** [s.toLowerCase()] on the letters A to Z. The result is only ever
    looked up in [HTTP_METHODS]: the characters outside ASCII that JavaScript
    lower-cases into ASCII give a [k] or keep a combining mark, and neither
    occurs in a method name, so the lookup finds what it finds in the
    source. *)
Fixpoint toLowerCase (s : string) : string :=
  match s with
  | EmptyString => EmptyString
  | String c s' => String (lower_char c) (toLowerCase s')
  end.

(** [HTTP_METHODS.includes(s)] *)
Definition is_http_method (s : string) : bool :=
  existsb (String.eqb s) HTTP_METHODS.

(** [[...new Set(l)]]: the elements of [l] in the order of their first
    occurrence, [eqb] being the equality of the set. *)
Fixpoint set_spread_from {A} (eqb : A → A → bool) (seen l : list A) : list A :=
  match l with
  | [] => []
  | x :: l' =>
      if existsb (eqb x) seen then set_spread_from eqb seen l'
      else x :: set_spread_from eqb (seen ++ [x]) l'
  end.

Definition set_spread {A} (eqb : A → A → bool) (l : list A) : list A :=
  set_spread_from eqb [] l.

(** The equality of a [Set] on the values a document holds: primitives by
    value. An object or an array is only equal to itself as a reference; the
    document tree holds each of them once, so here none equals another. *)
Definition same_value_zero (a b : jsval) : bool :=
  match a, b with
  | None, None => true
  | Some JNull, Some JNull => true
  | Some (JBool x), Some (JBool y) => Bool.eqb x y
  | Some (JNum x), Some (JNum y) => (x =? y)%Z
  | Some (JStr x), Some (JStr y) => String.eqb x y
  | _, _ => false
  end.

(** [ps.concat(v)]: an array is spread, any other value is appended. *)
Definition array_concat (ps : list json) (v : json) : list json :=
  match v with
  | JArr elems => ps ++ elems
  | _ => ps ++ [v]
  end.

(** [n / d || 0] for two lengths: [NoRatio] is the [0] that replaces a zero
    or [NaN] quotient, [Ratio n d] stands for the double nearest to [n / d]
    ([Infinity] when [d] is zero). *)
Inductive ratio : Type :=
  | NoRatio
  | Ratio (n d : nat).

Definition ratio_or_zero (n d : nat) : ratio :=
  match n with
  | O => NoRatio
  | S _ => Ratio n d
  end.

Record structureSize : Type := StructureSize {
  paths : nat;
  operations : nat;
  webhooks : nat;
  used_methods : nat;
  parametered_operations : nat;
  distinct_parameters : list jsval;
  parameters_per_operations : ratio;
  used_parameters : nat;
  methods : list (string * nat)
}.

(** [methods[k] += 1] for a [k] that is one of the keys. *)
Definition increment (k : string) (counters : list (string * nat)) : list (string * nat) :=
  (λ kn : string * nat, if String.eqb kn.1 k then (kn.1, S kn.2) else kn) <$> counters.

(** What the two loops of lines 128-139 hold: the operations pushed, the
    parameters collected and the counters of the methods. *)
Record walk : Type := Walk {
  walk_operations : list (string * string);
  walk_parameters : list json;
  walk_methods : list (string * nat)
}.

(** The body of the inner loop (lines 130-137) for the key [method] of
    [paths[path]]. *)
Definition visit_method (path : string) (pathItem : json) (w : walk) (method : string) : walk :=
  if is_http_method (toLowerCase method) then
    let details := getopt (prop pathItem method) "parameters" in
    {| walk_operations := walk_operations w ++ [(path, method)];
       walk_parameters :=
         match details with
         | Some v => if truthy details then array_concat (walk_parameters w) v
                     else walk_parameters w
         | None => walk_parameters w
         end;
       walk_methods := increment (toLowerCase method) (walk_methods w) |}
  else w.

(** The body of the outer loop (lines 128-139) for the key [path] of
    [paths]; a [for...in] over [undefined] or [null] visits nothing. *)
Definition visit_path (pathsObj : json) (w : walk) (path : string) : walk :=
  match prop pathsObj path with
  | Some pathItem => foldl (visit_method path pathItem) w (own_entries pathItem).*1
  | None => w
  end.

(** Lines 107-154. *)
Definition calculateStructureSize (api : json) : outcome structureSize :=
  pathsVal ← get (Some api) "paths";
  webhooksVal ← get (Some api) "webhooks";
  let webhooksCount :=
    if truthy webhooksVal then length (entries_of webhooksVal) else 0 in
  mret
    match pathsVal with
    | Some pathsObj =>
        if truthy pathsVal then
          let w := foldl (visit_path pathsObj)
                         {| walk_operations := []; walk_parameters := [];
                            walk_methods := (λ m, (m, 0)) <$> HTTP_METHODS |}
                         (own_entries pathsObj).*1 in
          {| paths := length (own_entries pathsObj);
             operations := length (walk_operations w);
             webhooks := webhooksCount;
             used_methods := length (set_spread String.eqb (walk_operations w).*2);
             parametered_operations := length (walk_parameters w);
             distinct_parameters :=
               set_spread same_value_zero
                 ((λ p, getopt (Some p) "name") <$> walk_parameters w);
             parameters_per_operations :=
               ratio_or_zero (length (walk_parameters w)) (length (walk_operations w));
             used_parameters := length (walk_parameters w);
             methods := walk_methods w |}
        else
          StructureSize 0 0 webhooksCount 0 0 [] NoRatio 0 []
    | None => StructureSize 0 0 webhooksCount 0 0 [] NoRatio 0 []
    end.

Definition MAX_SAFE_INTEGER : N := 9007199254740991.

Record schemaSize : Type := SchemaSize {
  used_schemas : N;
  defined_schemas : N;
  properties : N;
  max_properties : N;
  min_properties : N;
  distinct_properties : list string
}.

(** What the [forEach] of lines 180-190 holds: [allProperties] and the
    three counters. *)
Record tally : Type := Tally {
  tally_all : list string;
  tally_properties : N;
  tally_max : N;
  tally_min : N
}.

(** [v === s] for a string [s]. *)
Definition is_string (v : jsval) (s : string) : bool :=
  match v with
  | Some (JStr t) => String.eqb t s
  | _ => false
  end.

(** The callback of lines 180-190. *)
Definition tally_group (tl : tally) (g : group) : outcome tally :=
  ty ← get (Some (schema g)) "type";
  if is_string ty "object" && truthy (prop (schema g) "properties") then
    let keys := (entries_of (prop (schema g) "properties")).*1 in
    mret {| tally_all := tally_all tl ++ keys;
            tally_properties := (tally_properties tl + N.of_nat (length keys))%N;
            tally_max := N.max (tally_max tl) (N.of_nat (length keys));
            tally_min := N.min (tally_min tl) (N.of_nat (length keys)) |}
  else mret tl.

Fixpoint tally_groups (tl : tally) (groupedSchemas : list group) : outcome tally :=
  match groupedSchemas with
  | [] => mret tl
  | g :: rest => tl' ← tally_group tl g; tally_groups tl' rest
  end.

(** Lines 162-200. *)
Definition calculateSchemaSize (api : json) (groupedSchemas : list group)
  : outcome schemaSize :=
  components ← get (Some api) "components";
  let defined :=
    if truthy (getopt components "schemas")
    then N.of_nat (length (entries_of (getopt components "schemas")))
    else 0%N in
  tl ← tally_groups {| tally_all := []; tally_properties := 0;
                       tally_max := 0; tally_min := MAX_SAFE_INTEGER |}
                    groupedSchemas;
  mret {| used_schemas := N.of_nat (length groupedSchemas);
          defined_schemas := defined;
          properties := tally_properties tl;
          max_properties := tally_max tl;
          min_properties :=
            if (tally_min tl =? MAX_SAFE_INTEGER)%N then 0%N else tally_min tl;
          distinct_properties := set_spread String.eqb (tally_all tl) |}.

Section SizeMetrics.

Variable compare : json → json → outcome bool.
Variable convertObj : json → outcome jsval.

(** Lines 91-100 of structureAndDatamodelMetrics.js. The metrics are
    computed from the document as it was given, not from the converted one. *)
Definition computeSizeMetrics (openAPISpec : json) : outcome (structureSize * schemaSize) :=
  match extractSchemas convertObj openAPISpec with
  | None => Throw TypeError
  | Some r =>
      structure ← calculateStructureSize openAPISpec;
      size ← calculateSchemaSize openAPISpec (groupBySchema compare (@schemas r));
      mret (structure, size)
  end.

End SizeMetrics.

(** The groups whose representative the [forEach] of
    [calculateSchemaSize] counts: those of type ["object"] with truthy
    [properties]. *)
Definition counted (g : group) : bool :=
  is_string (prop (schema g) "type") "object"
  && truthy (prop (schema g) "properties").

Definition property_names (g : group) : list string :=
  (entries_of (prop (schema g) "properties")).*1.

(** The operations [calculateStructureSize] counts under the entry [pm] of
    [paths]: the keys whose lower case is an HTTP method. *)
Definition operations_of_path (pm : string * json) : list (string * string) :=
  pair pm.1 <$> filter (λ m, is_http_method (toLowerCase m)) (own_entries pm.2).*1.

(** The counters name the eight methods and add up to the operations. *)
Definition walk_ok (w : walk) : Prop :=
  (walk_methods w).*1 = HTTP_METHODS
  ∧ sum_list_with snd (walk_methods w) = length (walk_operations w).

(** The endpoint entries of the groups that carry the direction tag [t],
    group after group. *)
Definition tagged_endpoints (t : msg_type) (grouped : list group) : list endpoint :=
  all_endpoints (filter (λ g, t ∈ message_type g) grouped).

(** A group that carries the tag [t] carries no other tag. *)
Definition pure_tag (t : msg_type) (g : group) : Prop :=
  t ∈ message_type g → ∀ t', t' ∈ message_type g → t' = t.

(** No group carries both direction tags. *)
Definition unmixed (grouped : list group) : Prop :=
  Forall (λ g, message_type g = [Res] ∨ message_type g = [Req]) grouped.

(** The occurrences of direction [t] in a work list. *)
Definition occurrences_of (t : msg_type) (ws : list (msg_type * item)) : list item :=
  (filter (λ w : msg_type * item, w.1 = t) ws).*2.

(** The guard json-schema-compare opens with: [undefined], [{}] and [true]
    are empty schemas; anything but [undefined], an object or a boolean is not
    a schema. *)
Definition is_empty_schema (v : json) : bool :=
  match v with
  | JObj [] | JBool true => true
  | _ => false
  end.

Definition is_schema (v : json) : bool :=
  match v with
  | JObj _ | JBool _ => true
  | _ => false
  end.

(** A comparator with that guard: two empty schemas are equivalent, and a
    value that is not a schema, such as the array of a tuple-typed [items],
    makes the comparison throw. On two schemas it accepts the syntactically
    equal ones, as the library does on the sample schemas below, which hold a
    [type] only. *)
Definition guarded_compare (a b : json) : outcome bool :=
  if is_empty_schema a && is_empty_schema b then Ret true
  else if is_schema a && is_schema b then Ret (json_eqb a b)
  else Throw (Some (JObj [("message",
                           JStr "Either of the values are not a JSON schema.")])).

(** [{ type: "array", items: [s1, s2] }]: a tuple, whose [items] is an
    array of schemas. *)
Definition tuple_of (s1 s2 : json) : json :=
  JObj [("type", JStr "array"); ("items", JArr [s1; s2])].

(** * Properties *)

(** Runs the binds of an [outcome] whose head has been computed. *)
Ltac run_outcome :=
  cbn [mbind outcome_bind mret outcome_ret fmap outcome_fmap mapM fst snd].

(** ** Endpoints and direction tags *)

Lemma same_endpoint_true (e1 e2 : endpoint) : same_endpoint e1 e2 = true ↔ e1 = e2.
Proof.
  destruct e1 as [m1 p1 c1], e2 as [m2 p2 c2]. unfold same_endpoint; simpl.
  rewrite !andb_true_iff, !String.eqb_eq. split.
  - intros [[-> ->] ->]. reflexivity.
  - intros [= -> -> ->]. auto.
Qed.

Lemma some_endpoint_elem_of (e : endpoint) (l : list endpoint) :
  existsb (λ e', same_endpoint e' e) l = true ↔ e ∈ l.
Proof.
  rewrite existsb_exists. split.
  - intros (e' & Hin & Heq). apply same_endpoint_true in Heq. subst e'.
    by apply list_elem_of_In.
  - intros Hin. exists e. split; [by apply list_elem_of_In | by apply same_endpoint_true].
Qed.

Lemma updateGroupedSchema_endpoints it t g :
  endpoints (updateGroupedSchema it t g) =
    if decide (endpoint_of it ∈ endpoints g)
    then endpoints g else endpoints g ++ [endpoint_of it].
Proof.
  unfold updateGroupedSchema; simpl.
  destruct (existsb _ _) eqn:E; case_decide as Hin; try reflexivity.
  - apply some_endpoint_elem_of in E. contradiction.
  - apply some_endpoint_elem_of in Hin. congruence.
Qed.

Lemma updateGroupedSchema_message_type it t g :
  message_type (updateGroupedSchema it t g) =
    if decide (t ∈ message_type g)
    then message_type g else message_type g ++ [t].
Proof.
  unfold updateGroupedSchema; simpl.
  case_bool_decide; case_decide; done.
Qed.

Lemma updateGroupedSchema_schema it t g :
  schema (updateGroupedSchema it t g) = schema g.
Proof. reflexivity. Qed.

(** ** The scan of [findSimilarSchema] *)

Section Scan.

Variable compare : json → json → outcome bool.

Lemma comparisons_Ret (l : list group) (d : json) (cs : list (option group)) :
  comparisons compare l d = Ret cs → Forall2 (cell_of compare d) l cs.
Proof.
  revert cs. induction l as [|g l IH]; intros cs; simpl.
  - intros [= <-]. constructor.
  - unfold comparisons in *. simpl. unfold mbind, outcome_bind at 1.
    destruct (compare (schema g) d) as [b|e] eqn:Hc; simpl; [|discriminate].
    destruct (mapM _ l) as [cs'|e] eqn:Hl; simpl; [|discriminate].
    intros [= <-]. constructor; [by exists b | by apply IH].
Qed.

Lemma comparisons_returns (l : list group) (d : json) :
  (∀ g, g ∈ l → ∃ b, compare (schema g) d = Ret b) →
  ∃ cs, comparisons compare l d = Ret cs.
Proof.
  induction l as [|g l IH]; intros Hall.
  - by exists [].
  - destruct (Hall g) as [b Hb]; [by left|].
    destruct IH as [cs Hcs]; [intros g' Hg'; apply Hall; by right|].
    exists ((if b then Some g else None) :: cs).
    unfold comparisons in *. simpl. rewrite Hb. simpl. by rewrite Hcs.
Qed.

Lemma comparisons_throws (l : list group) (d : json) (e : jsval) :
  comparisons compare l d = Throw e →
  ∃ g, g ∈ l ∧ compare (schema g) d = Throw e.
Proof.
  induction l as [|g l IH]; [discriminate|].
  unfold comparisons in *. simpl. unfold mbind at 1, outcome_bind at 1.
  destruct (compare (schema g) d) as [b|e'] eqn:Hc; simpl.
  - destruct (mapM _ l) as [cs'|e'] eqn:Hl; simpl; [discriminate|].
    intros [= ->]. destruct IH as (g' & ? & ?); [done|]. exists g'. split; [by right|done].
  - intros [= ->]. exists g. split; [by left|done].
Qed.

End Scan.

Section Step.

Variable compare : json → json → outcome bool.

Lemma findSimilarSchema_Some_inv (l : list group) (d : json) (i : nat) (g : group) :
  findSimilarSchema compare l d = Ret (Some (i, g)) →
  l !! i = Some g ∧ compare (schema g) d = Ret true
  ∧ (∀ j g', l !! j = Some g' → j < i → compare (schema g') d = Ret false)
  ∧ (∀ g', g' ∈ l → ∃ b, compare (schema g') d = Ret b).
Proof.
  unfold findSimilarSchema.
  destruct (comparisons compare l d) as [cs|e] eqn:Hcs; simpl; [|discriminate].
  apply comparisons_Ret in Hcs.
  destruct (list_find is_Some cs) as [[k [g0|]]|] eqn:Hfind; intros [= -> ->].
  apply list_find_Some in Hfind as (Hk & _ & Hleast).
  destruct (Forall2_lookup_r _ _ _ _ _ Hcs Hk) as (g1 & Hg1 & b & Hb & Hc).
  destruct b; [|discriminate]. injection Hc as <-.
  split_and!; [done..| |].
  - intros j g' Hj Hlt.
    destruct (Forall2_lookup_l _ _ _ _ _ Hcs Hj) as (c & Hc & b & Hb' & ->).
    destruct b; [|done]. destruct (Hleast j _ Hc Hlt). by eexists.
  - intros g' [j Hj]%list_elem_of_lookup.
    destruct (Forall2_lookup_l _ _ _ _ _ Hcs Hj) as (c & _ & b & Hb' & _). by exists b.
Qed.

Lemma findSimilarSchema_None_inv (l : list group) (d : json) :
  findSimilarSchema compare l d = Ret None →
  ∀ g, g ∈ l → compare (schema g) d = Ret false.
Proof.
  unfold findSimilarSchema.
  destruct (comparisons compare l d) as [cs|e] eqn:Hcs; simpl; [|discriminate].
  apply comparisons_Ret in Hcs.
  destruct (list_find is_Some cs) as [[k [g0|]]|] eqn:Hfind; [discriminate| |].
  - apply list_find_Some in Hfind as (_ & [? [=]] & _).
  - intros _ g [j Hj]%list_elem_of_lookup.
    destruct (Forall2_lookup_l _ _ _ _ _ Hcs Hj) as (c & Hc & b & Hb & ->).
    destruct b; [|done].
    rewrite list_find_None, Forall_lookup in Hfind.
    destruct (Hfind j _ Hc). by eexists.
Qed.

Lemma findSimilarSchema_Throw_inv (l : list group) (d : json) (e : jsval) :
  findSimilarSchema compare l d = Throw e →
  ∃ g, g ∈ l ∧ compare (schema g) d = Throw e.
Proof.
  unfold findSimilarSchema.
  destruct (comparisons compare l d) as [cs|e'] eqn:Hcs; simpl; [discriminate|].
  intros [= ->]. by apply comparisons_throws.
Qed.

Lemma findSimilarSchema_returns (l : list group) (d : json) :
  (∀ g, g ∈ l → ∃ b, compare (schema g) d = Ret b) →
  ∃ r, findSimilarSchema compare l d = Ret r.
Proof.
  intros Hall. destruct (comparisons_returns compare l d Hall) as [cs Hcs].
  unfold findSimilarSchema. rewrite Hcs. simpl. by eexists.
Qed.



Lemma alter_as_insert {A} (f : A → A) (l : list A) (i : nat) (x : A) :
  l !! i = Some x → alter f i l = <[i := f x]> l.
Proof.
  intros Hi. rewrite list_insert_alter.
  apply list_alter_ext; [|done]. intros y Hy. congruence.
Qed.

(** What the loop body does to the group list, by the result of the scan. *)
Lemma process_item_merge t grouped it i g :
  findSimilarSchema compare grouped (currentSchema t it) = Ret (Some (i, g)) →
  process_item compare t grouped it =
    (<[i := updateGroupedSchema it t g]> grouped, []).
Proof.
  intros Hf. unfold process_item. rewrite Hf.
  apply findSimilarSchema_Some_inv in Hf as (Hi & _).
  by rewrite (alter_as_insert _ _ _ _ Hi).
Qed.

Lemma process_item_create t grouped it :
  findSimilarSchema compare grouped (currentSchema t it) = Ret None →
  process_item compare t grouped it = (addNewSchema grouped it t, []).
Proof. intros Hf. unfold process_item. by rewrite Hf. Qed.

Lemma process_item_caught t grouped it e :
  findSimilarSchema compare grouped (currentSchema t it) = Throw e →
  process_item compare t grouped it = (grouped, [e]).
Proof. intros Hf. unfold process_item. by rewrite Hf. Qed.


End Step.



(** ** Runs of the loop *)

Section Runs.

Variable compare : json → json → outcome bool.

Lemma run_items_nil t st : run_items compare t [] st = st.
Proof. reflexivity. Qed.

Lemma run_items_cons t it items st :
  run_items compare t (it :: items) st =
    run_items compare t items
      ((process_item compare t st.1 it).1, st.2 ++ (process_item compare t st.1 it).2).
Proof.
  unfold run_items. simpl. by destruct (process_item compare t st.1 it).
Qed.

Lemma run_items_app t items1 items2 st :
  run_items compare t (items1 ++ items2) st =
    run_items compare t items2 (run_items compare t items1 st).
Proof. unfold run_items. apply foldl_app. Qed.

(** *** The invariant of a group *)

Lemma updateGroupedSchema_ok it t g :
  group_ok g → group_ok (updateGroupedSchema it t g).
Proof.
  intros [Hep Hmt]. split.
  - rewrite updateGroupedSchema_endpoints. case_decide as Hin; [done|].
    apply NoDup_app. split_and!; [done | | apply NoDup_singleton].
    intros e He ->%list_elem_of_singleton. contradiction.
  - rewrite updateGroupedSchema_message_type. case_decide as Hin; [done|].
    apply NoDup_app. split_and!; [done | | apply NoDup_singleton].
    intros e He ->%list_elem_of_singleton. contradiction.
Qed.

Lemma addNewSchema_ok grouped it t :
  Forall group_ok grouped → Forall group_ok (addNewSchema grouped it t).
Proof.
  intros Hok. unfold addNewSchema. apply Forall_app. split; [done|].
  apply Forall_singleton. split; apply NoDup_singleton.
Qed.

Lemma process_item_ok t grouped it :
  Forall group_ok grouped → Forall group_ok (process_item compare t grouped it).1.
Proof.
  intros Hok. unfold process_item.
  destruct (findSimilarSchema compare grouped (currentSchema t it))
    as [[[i g]|]|e]; simpl.
  - apply Forall_alter; [done|]. intros g' _ Hg'. by apply updateGroupedSchema_ok.
  - by apply addNewSchema_ok.
  - done.
Qed.

(** C4. Every group list the grouping loop can reach, after a merge, a
    creation or a skipped occurrence, holds only groups whose endpoint list has
    no two entries with the same (path, method, code) and whose direction list
    has no repeated tag. *)
Theorem reachable_groups_have_no_duplicates (grouped : list group) :
  reachable compare grouped → Forall group_ok grouped.
Proof.
  induction 1 as [|t grouped it _ IH _].
  - constructor.
  - by apply process_item_ok.
Qed.

Lemma run_items_reachable t items st :
  Forall (λ it, truthy (body_schema t it) = true) items →
  reachable compare st.1 →
  reachable compare (run_items compare t items st).1.
Proof.
  revert st. induction items as [|it items IH]; intros st Hsel Hst; [done|].
  rewrite run_items_cons. inversion_clear Hsel as [|?? Hit Hrest].
  apply IH; [done|]. simpl. by constructor.
Qed.

Lemma selected_truthy t array :
  Forall (λ it, truthy (body_schema t it) = true) (selected t array).
Proof.
  apply Forall_forall. intros it Hit. unfold selected in Hit.
  apply list_elem_of_filter in Hit as [Hit _]. by apply Is_true_true.
Qed.

Lemma groupBySchema_reachable array :
  reachable compare (groupBySchema compare array).
Proof.
  unfold groupBySchema, groupBySchema_run, processType.
  apply run_items_reachable; [apply selected_truthy|].
  apply run_items_reachable; [apply selected_truthy|]. constructor.
Qed.

End Runs.

(** C4, on a sample: the groups of a two-item array. *)
Lemma reachable_groups_have_no_duplicates_witness :
  Forall group_ok
    (groupBySchema strict_compare
       [ sample_item "/a" "get" "200" (Some (json_body (type_schema "string")))
                     (Some (json_body (type_schema "integer")));
         sample_item "/b" "get" "200" (Some (json_body (type_schema "integer"))) None ]).
Proof.
  apply (reachable_groups_have_no_duplicates strict_compare).
  apply groupBySchema_reachable.
Defined.

(** ** What a step leaves alone *)

Section Frame.

Variable compare : json → json → outcome bool.

Lemma process_item_keeps_schema t grouped it j g :
  grouped !! j = Some g →
  ∃ g', (process_item compare t grouped it).1 !! j = Some g' ∧ schema g' = schema g.
Proof.
  intros Hj. unfold process_item.
  destruct (findSimilarSchema compare grouped (currentSchema t it))
    as [[[i g0]|]|e]; simpl.
  - destruct (decide (i = j)) as [->|Hne].
    + exists (updateGroupedSchema it t g). split; [|done].
      by rewrite list_lookup_alter_eq, Hj.
    + exists g. split; [|done]. by rewrite list_lookup_alter_ne.
  - exists g. split; [|done]. unfold addNewSchema. by apply lookup_app_l_Some.
  - by exists g.
Qed.

Lemma run_items_keeps_schema t items st j g :
  st.1 !! j = Some g →
  ∃ g', (run_items compare t items st).1 !! j = Some g' ∧ schema g' = schema g.
Proof.
  revert st g. induction items as [|it items IH]; intros st g Hj.
  - by exists g.
  - rewrite run_items_cons.
    destruct (process_item_keeps_schema t st.1 it j g Hj) as (g1 & Hg1 & Hs1).
    destruct (IH ((process_item compare t st.1 it).1,
                  st.2 ++ (process_item compare t st.1 it).2) g1 Hg1) as (g2 & Hg2 & Hs2).
    exists g2. split; [done | congruence].
Qed.

(** C5. A group's representative is the fragment of the occurrence that
    created it, and no later occurrence replaces it: a step that merges into
    group [i] changes the endpoints and the directions of that group only, a
    step that creates a group appends it, and along any run every existing
    group keeps its position and its representative. *)
Theorem representative_is_permanent (t : msg_type) (grouped : list group) (it : item) :
  (∀ i g,
     findSimilarSchema compare grouped (currentSchema t it) = Ret (Some (i, g)) →
     length (process_item compare t grouped it).1 = length grouped
     ∧ (∀ j, j ≠ i → (process_item compare t grouped it).1 !! j = grouped !! j)
     ∧ grouped !! i = Some g
     ∧ (process_item compare t grouped it).1 !! i
       = Some {| schema := schema g;
                 endpoints := endpoints (updateGroupedSchema it t g);
                 message_type := message_type (updateGroupedSchema it t g) |})
  ∧ (findSimilarSchema compare grouped (currentSchema t it) = Ret None →
     ∃ g, (process_item compare t grouped it).1 = grouped ++ [g]
          ∧ schema g = currentSchema t it)
  ∧ (∀ (t' : msg_type) (items : list item) (out : list jsval) (j : nat) (g : group),
       (process_item compare t grouped it).1 !! j = Some g →
       ∃ g', (run_items compare t' items ((process_item compare t grouped it).1, out)).1 !! j
               = Some g'
             ∧ schema g' = schema g).
Proof.
  split_and!.
  - intros i g Hf. rewrite (process_item_merge compare t grouped it i g Hf). simpl.
    apply findSimilarSchema_Some_inv in Hf as (Hi & _).
    split_and!.
    + apply length_insert.
    + intros j Hne. by apply list_lookup_insert_ne.
    + done.
    + rewrite list_lookup_insert_eq; [done|]. by eapply lookup_lt_Some.
  - intros Hf. rewrite (process_item_create compare t grouped it Hf). simpl.
    by eexists.
  - intros t' items out j g Hj.
    by apply (run_items_keeps_schema t' items ((process_item compare t grouped it).1, out) j g).
Qed.

(** *** A comparison that throws *)

Lemma findSimilarSchema_throws (l : list group) (d : json) (g : group) (e : jsval) :
  g ∈ l → compare (schema g) d = Throw e →
  ∃ e', findSimilarSchema compare l d = Throw e'.
Proof.
  intros Hg He.
  destruct (findSimilarSchema compare l d) as [[[i g0]|]|e'] eqn:Hf; [| |by eexists].
  - apply findSimilarSchema_Some_inv in Hf as (_ & _ & _ & Hall).
    destruct (Hall g Hg) as [b Hb]. congruence.
  - pose proof (findSimilarSchema_None_inv compare l d Hf g Hg). congruence.
Qed.

(** C7, as the code has it. When the comparison of an occurrence's
    fragment against some existing group throws, the error is caught and
    printed, the occurrence is skipped (no group gains it and none is created,
    whatever the other groups compare to), and the loop goes on with the next
    occurrence. *)
Theorem comparison_error_skips_occurrence
    (t : msg_type) (grouped : list group) (it : item) (g : group) (e : jsval) :
  g ∈ grouped →
  compare (schema g) (currentSchema t it) = Throw e →
  ∃ e', process_item compare t grouped it = (grouped, [e'])
        ∧ ∀ items out,
            run_items compare t (it :: items) (grouped, out)
            = run_items compare t items (grouped, out ++ [e']).
Proof.
  intros Hg He.
  destruct (findSimilarSchema_throws grouped (currentSchema t it) g e Hg He) as [e' Hf].
  exists e'. pose proof (process_item_caught compare t grouped it e' Hf) as Hp.
  split; [done|]. intros items out. rewrite run_items_cons. simpl. by rewrite Hp.
Qed.

(** *** The order of the two passes *)

Lemma run_items_work t items st :
  run_items compare t items st = foldl (process_work compare) st (pair t <$> items).
Proof.
  revert st. induction items as [|it items IH]; intros st; [done|].
  rewrite run_items_cons, IH. simpl. f_equal.
  unfold process_work. simpl. by destruct (process_item compare t st.1 it).
Qed.

(** C2. [groupBySchema] runs the loop body over the work list, which is
    the response occurrences of the array in array order followed by its
    request occurrences in array order: every response occurrence is grouped
    before any request occurrence. *)
Theorem responses_are_grouped_before_requests (array : list item) :
  groupBySchema_run compare array = foldl (process_work compare) ([], []) (work_list array)
  ∧ groupBySchema compare array
    = (foldl (process_work compare) ([], []) (work_list array)).1
  ∧ (∃ responses requests,
       work_list array = (pair Res <$> responses) ++ (pair Req <$> requests)
       ∧ responses `sublist_of` array
       ∧ requests `sublist_of` array
       ∧ (∀ it, it ∈ responses ↔ it ∈ array ∧ truthy (body_schema Res it) = true)
       ∧ (∀ it, it ∈ requests ↔ it ∈ array ∧ truthy (body_schema Req it) = true))
  ∧ (∀ i j it1 it2,
       work_list array !! i = Some (Req, it1) →
       work_list array !! j = Some (Res, it2) →
       j < i).
Proof.
  assert (Hrun : groupBySchema_run compare array
                 = foldl (process_work compare) ([], []) (work_list array)).
  { unfold groupBySchema_run, processType, work_list.
    by rewrite foldl_app, !run_items_work. }
  split_and!.
  - done.
  - unfold groupBySchema. by rewrite Hrun.
  - exists (selected Res array), (selected Req array).
    split_and!; [done | apply sublist_filter | apply sublist_filter | |];
      intros it; unfold selected; rewrite list_elem_of_filter, Is_true_true; tauto.
  - intros i j it1 it2 Hi Hj. unfold work_list in *.
    apply lookup_app_Some in Hi as [Hi|[Hge Hi]].
    { apply list_lookup_fmap_Some in Hi as (? & [=] & ?). }
    apply lookup_app_Some in Hj as [Hj|[_ Hj]].
    + apply lookup_lt_Some in Hj. lia.
    + apply list_lookup_fmap_Some in Hj as (? & [=] & ?).
Qed.

End Frame.

(** C7, on a sample: a group whose representative is the [items] array of
    a tuple, which is not a schema, and an occurrence of the integer schema. *)
Lemma comparison_error_skips_occurrence_witness :
  let pair := JArr [type_schema "string"; type_schema "integer"] in
  let g := Group pair [Endpoint "get" "/pair" "200"] [Res] in
  let it := sample_item "/b" "get" "200" (Some (json_body (type_schema "integer"))) None in
  ∃ e', process_item guarded_compare Res [g] it = ([g], [e'])
        ∧ ∀ items out,
            run_items guarded_compare Res (it :: items) ([g], out)
            = run_items guarded_compare Res items ([g], out ++ [e']).
Proof.
  intros pair g it.
  apply (comparison_error_skips_occurrence guarded_compare Res [g] it g
           (Some (JObj [("message",
                         JStr "Either of the values are not a JSON schema.")]))).
  - apply list_elem_of_here.
  - reflexivity.
Defined.

(** C7 as the specification words it fails. The first response is a tuple,
    [{ type: "array", items: [{ type: "string" }, { type: "integer" }] }]: its
    fragment is the [items] array, which becomes the first group's
    representative without any comparison. Comparing it with the integer schema
    of the second response throws, and the second occurrence is dropped,
    whereas treating the throwing pair as non-equivalent would have given it a
    group of its own. *)
Lemma comparison_error_is_not_recovered_per_pair :
  let pair := JArr [type_schema "string"; type_schema "integer"] in
  let array :=
    [ sample_item "/pair" "get" "200"
                  (Some (json_body (tuple_of (type_schema "string")
                                             (type_schema "integer")))) None;
      sample_item "/b" "get" "200" (Some (json_body (type_schema "integer"))) None ] in
  guarded_compare pair (type_schema "integer")
    = Throw (Some (JObj [("message",
                          JStr "Either of the values are not a JSON schema.")]))
  ∧ groupBySchema_run guarded_compare array
    = ([ Group pair [Endpoint "get" "/pair" "200"] [Res] ],
       [ Some (JObj [("message",
                      JStr "Either of the values are not a JSON schema.")]) ])
  ∧ groupBySchema (recovering guarded_compare) array
    = [ Group pair [Endpoint "get" "/pair" "200"] [Res];
        Group (type_schema "integer") [Endpoint "get" "/b" "200"] [Res] ]
  ∧ groupBySchema guarded_compare array
    ≠ groupBySchema (recovering guarded_compare) array.
Proof.
  intros pair array. split_and!; [reflexivity | reflexivity | reflexivity | discriminate].
Qed.

(** ** The fragment an occurrence is grouped by *)

(** C3, as the code has it. The fragment of an occurrence with a truthy
    JSON body schema is the schema's [items] value when that value is present
    and truthy, whatever the [type], and the body schema itself otherwise, an
    array schema without [items] included. The unwrapping is applied once: the
    fragment of an array of arrays is the inner array schema. *)
Theorem fragment_is_truthy_items_or_schema (t : msg_type) (it : item) :
  truthy (body_schema t it) = true →
  ∃ s, body_schema t it = Some s
       ∧ currentSchema t it = fragment s
       ∧ (∀ i, prop s "items" = Some i → truthy (Some i) = true → fragment s = i)
       ∧ (∀ i, prop s "items" = Some i → truthy (Some i) = false → fragment s = s)
       ∧ (prop s "items" = None → fragment s = s)
       ∧ (∀ inner, s = array_of (array_of inner) → fragment s = array_of inner).
Proof.
  intros Htruthy. destruct (body_schema t it) as [s|] eqn:Hs; [|discriminate].
  exists s. unfold currentSchema. rewrite Hs. split_and!; [done..| | | |].
  - intros i Hi Ht. unfold fragment. by rewrite Hi, Ht.
  - intros i Hi Ht. unfold fragment. by rewrite Hi, Ht.
  - intros Hi. unfold fragment. by rewrite Hi.
  - by intros inner ->.
Qed.

(** C3, on a sample: a response whose body is an array of arrays of
    strings. *)
Lemma fragment_is_truthy_items_or_schema_witness :
  let s := array_of (array_of (type_schema "string")) in
  let it := sample_item "/a" "get" "200" (Some (json_body s)) None in
  ∃ s', body_schema Res it = Some s'
       ∧ currentSchema Res it = fragment s'
       ∧ (∀ i, prop s' "items" = Some i → truthy (Some i) = true → fragment s' = i)
       ∧ (∀ i, prop s' "items" = Some i → truthy (Some i) = false → fragment s' = s')
       ∧ (prop s' "items" = None → fragment s' = s')
       ∧ (∀ inner, s' = array_of (array_of inner) → fragment s' = array_of inner).
Proof.
  intros s it. apply (fragment_is_truthy_items_or_schema Res it). reflexivity.
Defined.

(** C3 as the specification words it fails: for an array schema that has
    no [items], the specification names the absent [items] value, the code
    groups by the schema itself. An [items] value that is present but falsy is
    not used either. *)
Lemma array_schema_without_items_is_not_unwrapped :
  let s := type_schema "array" in
  let it := sample_item "/a" "get" "200" (Some (json_body s)) None in
  truthy (body_schema Res it) = true
  ∧ spec_fragment s = None
  ∧ currentSchema Res it = s
  ∧ spec_fragment (JObj [("items", JBool false)]) = Some (JBool false)
  ∧ fragment (JObj [("items", JBool false)]) = JObj [("items", JBool false)].
Proof. intros s it. split_and!; reflexivity. Qed.

(** ** Coverage *)

Section Coverage.

Variable compare : json → json → outcome bool.

Lemma extends_refl g : extends g g.
Proof. by split_and!. Qed.

Lemma extends_trans g1 g2 g3 : extends g1 g2 → extends g2 g3 → extends g1 g3.
Proof.
  intros (Hs1 & He1 & Hm1) (Hs2 & He2 & Hm2).
  split_and!; [congruence | set_solver | set_solver].
Qed.

Lemma updateGroupedSchema_extends it t g : extends g (updateGroupedSchema it t g).
Proof.
  split_and!.
  - done.
  - rewrite updateGroupedSchema_endpoints. case_decide; set_solver.
  - rewrite updateGroupedSchema_message_type. case_decide; set_solver.
Qed.

Lemma updateGroupedSchema_holds it t g :
  endpoint_of it ∈ endpoints (updateGroupedSchema it t g)
  ∧ t ∈ message_type (updateGroupedSchema it t g).
Proof.
  rewrite updateGroupedSchema_endpoints, updateGroupedSchema_message_type.
  split; case_decide; set_solver.
Qed.

Lemma process_item_extends t grouped it j g :
  grouped !! j = Some g →
  ∃ g', (process_item compare t grouped it).1 !! j = Some g' ∧ extends g g'.
Proof.
  intros Hj. unfold process_item.
  destruct (findSimilarSchema compare grouped (currentSchema t it))
    as [[[i g0]|]|e]; simpl.
  - destruct (decide (i = j)) as [->|Hne].
    + exists (updateGroupedSchema it t g). split.
      * by rewrite list_lookup_alter_eq, Hj.
      * apply updateGroupedSchema_extends.
    + exists g. split; [by rewrite list_lookup_alter_ne | apply extends_refl].
  - exists g. split; [by apply lookup_app_l_Some | apply extends_refl].
  - exists g. split; [done | apply extends_refl].
Qed.

Lemma run_items_extends t items st j g :
  st.1 !! j = Some g →
  ∃ g', (run_items compare t items st).1 !! j = Some g' ∧ extends g g'.
Proof.
  revert st g. induction items as [|it items IH]; intros st g Hj.
  - exists g. split; [done | apply extends_refl].
  - rewrite run_items_cons.
    destruct (process_item_extends t st.1 it j g Hj) as (g1 & Hg1 & Hext1).
    destruct (IH ((process_item compare t st.1 it).1,
                  st.2 ++ (process_item compare t st.1 it).2) g1 Hg1)
      as (g2 & Hg2 & Hext2).
    exists g2. split; [done | by eapply extends_trans].
Qed.

Lemma accounts_for_extends t it g g' :
  accounts_for compare t it g → extends g g' → accounts_for compare t it g'.
Proof.
  intros (He & Hm & Hs) (Hs' & He' & Hm').
  split_and!; [by apply He' | by apply Hm' | by rewrite Hs'].
Qed.

Lemma process_item_accounts t grouped it :
  (∀ g, g ∈ grouped → ∃ b, compare (schema g) (currentSchema t it) = Ret b) →
  ∃ j g, (process_item compare t grouped it).1 !! j = Some g
         ∧ accounts_for compare t it g.
Proof.
  intros Hall.
  destruct (findSimilarSchema_returns compare grouped _ Hall) as [[[i g]|] Hf].
  - rewrite (process_item_merge compare t grouped it i g Hf). simpl.
    apply findSimilarSchema_Some_inv in Hf as (Hi & Htrue & _).
    exists i, (updateGroupedSchema it t g). split.
    + rewrite list_lookup_insert_eq; [done|]. by eapply lookup_lt_Some.
    + destruct (updateGroupedSchema_holds it t g). split_and!; [done..|by right].
  - rewrite (process_item_create compare t grouped it Hf). simpl.
    exists (length grouped). eexists. split.
    + unfold addNewSchema. by rewrite lookup_app_r, Nat.sub_diag by lia.
    + split_and!; [simpl; set_solver | simpl; set_solver | by left].
Qed.

Lemma run_items_accounts t items st it :
  (∀ a b, ∃ r, compare a b = Ret r) →
  it ∈ items →
  ∃ j g, (run_items compare t items st).1 !! j = Some g
         ∧ accounts_for compare t it g.
Proof.
  intros Htotal. revert st.
  induction items as [|it' items IH]; intros st Hin; [by apply elem_of_nil in Hin|].
  rewrite run_items_cons.
  apply elem_of_cons in Hin as [->|Hin]; [|by apply IH].
  destruct (process_item_accounts t st.1 it') as (j & g & Hj & Hacc); [by eauto|].
  destruct (run_items_extends t items
              ((process_item compare t st.1 it').1,
               st.2 ++ (process_item compare t st.1 it').2) j g Hj)
    as (g' & Hg' & Hext).
  exists j, g'. split; [done | by eapply accounts_for_extends].
Qed.

Lemma groupBySchema_accounts array t it :
  (∀ a b, ∃ r, compare a b = Ret r) →
  it ∈ selected t array →
  ∃ g, g ∈ groupBySchema compare array ∧ accounts_for compare t it g.
Proof.
  intros Htotal Hin. unfold groupBySchema, groupBySchema_run, processType.
  destruct t.
  - destruct (run_items_accounts Res (selected Res array) ([], []) it Htotal Hin)
      as (j & g & Hj & Hacc).
    destruct (run_items_extends Req (selected Req array) _ j g Hj)
      as (g' & Hg' & Hext).
    exists g'. split; [by eapply list_elem_of_lookup_2 | by eapply accounts_for_extends].
  - destruct (run_items_accounts Req (selected Req array)
                (run_items compare Res (selected Res array) ([], [])) it Htotal Hin)
      as (j & g & Hj & Hacc).
    exists g. split; [by eapply list_elem_of_lookup_2 | done].
Qed.

(** *** Counting endpoint entries *)

Lemma endpoints_total_length grouped :
  endpoints_total grouped = length (all_endpoints grouped).
Proof.
  unfold endpoints_total, all_endpoints.
  induction grouped as [|g grouped IH]; [done|].
  simpl. rewrite length_app. by rewrite IH.
Qed.

Lemma all_endpoints_app G1 G2 :
  all_endpoints (G1 ++ G2) = all_endpoints G1 ++ all_endpoints G2.
Proof. unfold all_endpoints. by rewrite fmap_app, concat_app. Qed.

Lemma all_endpoints_cons g G :
  all_endpoints (g :: G) = endpoints g ++ all_endpoints G.
Proof. reflexivity. Qed.

Lemma all_endpoints_snoc G g :
  all_endpoints (G ++ [g]) = all_endpoints G ++ endpoints g.
Proof.
  rewrite all_endpoints_app. unfold all_endpoints at 2. simpl. by rewrite app_nil_r.
Qed.

(** The three things the loop body can do to the group list. *)
Lemma process_item_shape t grouped it :
  (∃ G1 g G2,
     grouped = G1 ++ g :: G2
     ∧ (process_item compare t grouped it).1 = G1 ++ updateGroupedSchema it t g :: G2)
  ∨ (process_item compare t grouped it).1 = addNewSchema grouped it t
  ∨ (process_item compare t grouped it).1 = grouped
    ∧ ∃ e, findSimilarSchema compare grouped (currentSchema t it) = Throw e.
Proof.
  destruct (findSimilarSchema compare grouped (currentSchema t it))
    as [[[i g]|]|e] eqn:Hf.
  - left. rewrite (process_item_merge compare t grouped it i g Hf). simpl.
    apply findSimilarSchema_Some_inv in Hf as (Hi & _).
    exists (take i grouped), g, (drop (S i) grouped). split.
    + by rewrite take_drop_middle.
    + apply insert_take_drop. by eapply lookup_lt_Some.
  - right; left. by rewrite (process_item_create compare t grouped it Hf).
  - right; right. rewrite (process_item_caught compare t grouped it e Hf). eauto.
Qed.

Lemma process_item_all_endpoints t grouped it :
  all_endpoints (process_item compare t grouped it).1 ≡ₚ all_endpoints grouped
  ∨ all_endpoints (process_item compare t grouped it).1
    ≡ₚ endpoint_of it :: all_endpoints grouped.
Proof.
  destruct (process_item_shape t grouped it)
    as [(G1 & g & G2 & -> & ->)|[->|[-> _]]].
  - rewrite !all_endpoints_app, !all_endpoints_cons, updateGroupedSchema_endpoints.
    case_decide; [by left|]. right.
    rewrite <-(assoc_L (++)). simpl.
    by rewrite <-!Permutation_middle.
  - right. unfold addNewSchema. rewrite all_endpoints_snoc. simpl.
    by rewrite <-Permutation_cons_append.
  - by left.
Qed.

Lemma process_item_total_bound t grouped it :
  (endpoints_total (process_item compare t grouped it).1 ≤ S (endpoints_total grouped))%nat.
Proof.
  rewrite !endpoints_total_length.
  destruct (process_item_all_endpoints t grouped it) as [-> | ->]; simpl; lia.
Qed.

Lemma run_items_total_bound t items st :
  (endpoints_total (run_items compare t items st).1
    ≤ endpoints_total st.1 + length items)%nat.
Proof.
  revert st. induction items as [|it items IH]; intros st; [simpl; lia|].
  rewrite run_items_cons.
  etrans; [apply IH|]. simpl.
  pose proof (process_item_total_bound t st.1 it). lia.
Qed.

(** In a pass from the empty list every group carries the tag of the pass
    only. *)
Lemma run_items_single_tag t items st :
  Forall (λ g, message_type g = [t]) st.1 →
  Forall (λ g, message_type g = [t]) (run_items compare t items st).1.
Proof.
  revert st. induction items as [|it items IH]; intros st Hst; [done|].
  rewrite run_items_cons. apply IH. simpl. unfold process_item.
  destruct (findSimilarSchema compare st.1 (currentSchema t it))
    as [[[i g]|]|e]; simpl.
  - apply Forall_alter; [done|]. intros g' _ Hg'.
    rewrite updateGroupedSchema_message_type, Hg'.
    case_decide as Hin; [done|]. destruct Hin. by apply list_elem_of_singleton.
  - unfold addNewSchema. apply Forall_app. split; [done|]. by apply Forall_singleton.
  - done.
Qed.

Lemma endpoints_in_direction_single_tag t t' grouped :
  Forall (λ g, message_type g = [t]) grouped →
  endpoints_in_direction t' grouped
  = if decide (t' = t) then endpoints_total grouped else 0.
Proof.
  unfold endpoints_in_direction, endpoints_total.
  induction 1 as [|g grouped Hg _ IH]; [by case_decide|].
  destruct (decide (t' = t)) as [->|Hne].
  - rewrite filter_cons_True by (rewrite Hg; apply list_elem_of_here).
    simpl. by rewrite IH.
  - rewrite filter_cons_False; [done|].
    rewrite Hg. by intros ?%list_elem_of_singleton.
Qed.

(** *** Runs in which no comparison throws *)

Lemma groupBySchema_run_work array :
  groupBySchema_run compare array
  = foldl (process_work compare) ([], []) (work_list array).
Proof.
  unfold groupBySchema_run, processType, work_list.
  by rewrite foldl_app, !run_items_work.
Qed.

Lemma occurrences_of_work_list t array :
  occurrences_of t (work_list array) = selected t array.
Proof.
  assert (Hsame : ∀ t items,
            (filter (λ w : msg_type * item, w.1 = t) (pair t <$> items)).*2 = items).
  { intros t'. induction items as [|it items IH]; [done|].
    rewrite fmap_cons, filter_cons_True by done. rewrite fmap_cons. simpl.
    by rewrite IH. }
  assert (Hother : ∀ t t' items, t' ≠ t →
            filter (λ w : msg_type * item, w.1 = t) (pair t' <$> items) = []).
  { intros t1 t2 items Hne. induction items as [|it items IH]; [done|].
    rewrite fmap_cons, filter_cons_False; [done|]. simpl. done. }
  unfold occurrences_of, work_list. rewrite filter_app, fmap_app.
  destruct t.
  - by rewrite Hsame, (Hother Res Req), app_nil_r.
  - by rewrite (Hother Req Res), Hsame.
Qed.

Lemma work_list_elem_of t it array :
  (t, it) ∈ work_list array ↔ it ∈ array ∧ truthy (body_schema t it) = true.
Proof.
  unfold work_list. rewrite elem_of_app, !list_elem_of_fmap. split.
  - intros [(it' & [= <- <-] & Hit)|(it' & [= <- <-] & Hit)];
      unfold selected in Hit; apply list_elem_of_filter in Hit as [Ht Hin];
      (split; [done | by apply Is_true_true]).
  - intros [Hin Ht]. destruct t; [left | right]; exists it;
      (split; [done|]); unfold selected; apply list_elem_of_filter;
      (split; [by apply Is_true_true | done]).
Qed.

(** The console only grows. *)
Lemma foldl_work_log ws st :
  ∃ out, (foldl (process_work compare) st ws).2 = st.2 ++ out.
Proof.
  revert st. induction ws as [|w ws IH]; intros st.
  - exists []. by rewrite app_nil_r.
  - simpl. destruct (IH (process_work compare st w)) as [out ->].
    unfold process_work. destruct (process_item compare w.1 st.1 w.2) as [G' out'].
    simpl. exists (out' ++ out). by rewrite (assoc_L (++)).
Qed.

(** A run that prints nothing is made of steps that print nothing. *)
Lemma quiet_cons w ws st :
  (foldl (process_work compare) st (w :: ws)).2 = st.2 →
  (process_item compare w.1 st.1 w.2).2 = []
  ∧ process_work compare st w = ((process_item compare w.1 st.1 w.2).1, st.2)
  ∧ (foldl (process_work compare) (process_work compare st w) ws).2
    = (process_work compare st w).2.
Proof.
  simpl. destruct (foldl_work_log ws (process_work compare st w)) as [out Hout].
  rewrite Hout. unfold process_work in *.
  destruct (process_item compare w.1 st.1 w.2) as [G' out'] eqn:Hstep. simpl in *.
  rewrite <-(assoc_L (++)). intros Heq.
  apply (f_equal length) in Heq as Hlen. rewrite !length_app in Hlen.
  assert (out' = []) as -> by (destruct out'; [done | simpl in Hlen; lia]).
  assert (out = []) as -> by (destruct out; [done | simpl in Hlen; lia]).
  by rewrite !app_nil_r in *.
Qed.

Lemma quiet_step_returns t grouped it :
  (process_item compare t grouped it).2 = [] →
  ∀ g, g ∈ grouped → ∃ b, compare (schema g) (currentSchema t it) = Ret b.
Proof.
  unfold process_item.
  destruct (findSimilarSchema compare grouped (currentSchema t it))
    as [[[i g0]|]|e] eqn:Hf; simpl; [| |done].
  - intros _. by apply findSimilarSchema_Some_inv in Hf as (_ & _ & _ & Hall).
  - intros _ g Hg. exists false. by eapply findSimilarSchema_None_inv.
Qed.

Lemma foldl_work_extends ws st j g :
  st.1 !! j = Some g →
  ∃ g', (foldl (process_work compare) st ws).1 !! j = Some g' ∧ extends g g'.
Proof.
  revert st g. induction ws as [|w ws IH]; intros st g Hj.
  - exists g. split; [done | apply extends_refl].
  - simpl.
    destruct (process_item_extends w.1 st.1 w.2 j g Hj) as (g1 & Hg1 & Hext1).
    destruct (IH (process_work compare st w) g1) as (g2 & Hg2 & Hext2).
    { unfold process_work. by destruct (process_item compare w.1 st.1 w.2). }
    exists g2. split; [done | by eapply extends_trans].
Qed.

Lemma foldl_work_accounts ws st t it :
  (foldl (process_work compare) st ws).2 = st.2 →
  (t, it) ∈ ws →
  ∃ j g, (foldl (process_work compare) st ws).1 !! j = Some g
         ∧ accounts_for compare t it g.
Proof.
  revert st. induction ws as [|w ws IH]; intros st Hquiet Hin.
  { by apply elem_of_nil in Hin. }
  destruct (quiet_cons w ws st Hquiet) as (Hout & Hstep & Hrest).
  apply elem_of_cons in Hin as [<-|Hin].
  - destruct (process_item_accounts t st.1 it) as (j & g & Hj & Hacc).
    { by apply quiet_step_returns. }
    destruct (foldl_work_extends ws (process_work compare st (t, it)) j g)
      as (g' & Hg' & Hext).
    { by rewrite Hstep. }
    exists j, g'. split; [done | by eapply accounts_for_extends].
  - simpl. by apply IH.
Qed.

Lemma process_item_tags_nonempty t grouped it :
  Forall (λ g, message_type g ≠ []) grouped →
  Forall (λ g, message_type g ≠ []) (process_item compare t grouped it).1.
Proof.
  intros Hok. unfold process_item.
  destruct (findSimilarSchema compare grouped (currentSchema t it))
    as [[[i g]|]|e]; simpl; [| |done].
  - apply Forall_alter; [done|]. intros g' _ _ Heq.
    destruct (updateGroupedSchema_holds it t g') as [_ Hm].
    rewrite Heq in Hm. by apply elem_of_nil in Hm.
  - unfold addNewSchema. apply Forall_app. split; [done|]. by apply Forall_singleton.
Qed.

(** *** The entries under one direction tag *)

Lemma endpoints_in_direction_length t grouped :
  endpoints_in_direction t grouped = length (tagged_endpoints t grouped).
Proof. apply endpoints_total_length. Qed.

Lemma tagged_endpoints_app t G1 G2 :
  tagged_endpoints t (G1 ++ G2) = tagged_endpoints t G1 ++ tagged_endpoints t G2.
Proof. unfold tagged_endpoints. by rewrite filter_app, all_endpoints_app. Qed.

Lemma tagged_endpoints_cons t g G :
  tagged_endpoints t (g :: G)
  = (if decide (t ∈ message_type g) then endpoints g else []) ++ tagged_endpoints t G.
Proof.
  unfold tagged_endpoints. case_decide.
  - by rewrite filter_cons_True.
  - by rewrite filter_cons_False.
Qed.

Lemma tagged_endpoints_holds t g G e :
  g ∈ G → t ∈ message_type g → e ∈ endpoints g → e ∈ tagged_endpoints t G.
Proof.
  intros Hg Ht He. induction G as [|g' G IH]; [by apply elem_of_nil in Hg|].
  rewrite tagged_endpoints_cons, elem_of_app.
  apply elem_of_cons in Hg as [<-|Hg]; [left; by rewrite decide_True | right; by apply IH].
Qed.

(** What a step that prints nothing does to the entries under the tag
    [t], when afterwards no group that carries [t] carries another tag. *)
Lemma process_item_tagged t t' grouped it :
  (process_item compare t' grouped it).2 = [] →
  Forall (pure_tag t) (process_item compare t' grouped it).1 →
  Forall (λ g, message_type g ≠ []) grouped →
  (t' = t → endpoint_of it ∉ tagged_endpoints t grouped) →
  tagged_endpoints t (process_item compare t' grouped it).1
  ≡ₚ tagged_endpoints t grouped ++ (if decide (t' = t) then [endpoint_of it] else []).
Proof.
  intros Hquiet Hpure Hne Hfresh.
  destruct (findSimilarSchema compare grouped (currentSchema t' it))
    as [[[i g]|]|e] eqn:Hf.
  - rewrite (process_item_merge compare t' grouped it i g Hf) in *. simpl in *.
    apply findSimilarSchema_Some_inv in Hf as (Hi & _).
    assert (Hg' : pure_tag t (updateGroupedSchema it t' g)).
    { apply (Forall_lookup_1 _ _ i _ Hpure).
      rewrite list_lookup_insert_eq; [done|]. by eapply lookup_lt_Some. }
    assert (Hgne : message_type g ≠ []) by apply (Forall_lookup_1 _ _ _ _ Hne Hi).
    destruct (updateGroupedSchema_holds it t' g) as [Hhe Hht].
    destruct (updateGroupedSchema_extends it t' g) as (_ & _ & Htags).
    rewrite insert_take_drop by (by eapply lookup_lt_Some).
    rewrite <-(take_drop_middle grouped i g Hi) at 3.
    rewrite <-(take_drop_middle grouped i g Hi) in Hfresh.
    rewrite !tagged_endpoints_app, !tagged_endpoints_cons.
    rewrite tagged_endpoints_app, tagged_endpoints_cons in Hfresh.
    destruct (decide (t' = t)) as [->|Hdiff].
    + assert (Hin : t ∈ message_type g).
      { destruct (message_type g) as [|t0 ts] eqn:Hmt; [done|].
        assert (t0 = t) as -> by (apply (Hg' Hht), Htags, list_elem_of_here).
        apply list_elem_of_here. }
      rewrite !decide_True by done.
      rewrite decide_True in Hfresh by done.
      rewrite updateGroupedSchema_endpoints. case_decide as Hold.
      * destruct Hfresh; [done|]. rewrite !elem_of_app. auto.
      * rewrite <-!(assoc_L (++)). do 2 apply Permutation_app_head.
        apply Permutation_app_comm.
    + assert (Hout : t ∉ message_type (updateGroupedSchema it t' g)).
      { intros Hin. by specialize (Hg' Hin t' Hht). }
      assert (Hout' : t ∉ message_type g) by (intros Hin; by apply Hout, Htags).
      rewrite !decide_False by done. by rewrite app_nil_r.
  - rewrite (process_item_create compare t' grouped it Hf). simpl.
    unfold addNewSchema. rewrite tagged_endpoints_app, tagged_endpoints_cons. simpl.
    destruct (decide (t' = t)) as [->|Hdiff].
    + rewrite decide_True by apply list_elem_of_here. by rewrite app_nil_r.
    + rewrite decide_False; [done|]. by intros ?%list_elem_of_singleton.
  - by rewrite (process_item_caught compare t' grouped it e Hf) in Hquiet.
Qed.

Lemma foldl_work_tags_nonempty ws st :
  Forall (λ g, message_type g ≠ []) st.1 →
  Forall (λ g, message_type g ≠ []) (foldl (process_work compare) st ws).1.
Proof.
  revert st. induction ws as [|w ws IH]; intros st Hst; [done|].
  simpl. apply IH. unfold process_work.
  pose proof (process_item_tags_nonempty w.1 st.1 w.2 Hst).
  by destruct (process_item compare w.1 st.1 w.2).
Qed.

Lemma pure_tag_extends t g g' : extends g g' → pure_tag t g' → pure_tag t g.
Proof.
  intros (_ & _ & Htags) Hpure Hin t' Ht'. apply Hpure; by apply Htags.
Qed.

Lemma foldl_work_exact t ws st :
  (foldl (process_work compare) st ws).2 = st.2 →
  Forall (pure_tag t) (foldl (process_work compare) st ws).1 →
  Forall (λ g, message_type g ≠ []) st.1 →
  NoDup (tagged_endpoints t st.1 ++ (endpoint_of <$> occurrences_of t ws)) →
  tagged_endpoints t (foldl (process_work compare) st ws).1
  ≡ₚ tagged_endpoints t st.1 ++ (endpoint_of <$> occurrences_of t ws).
Proof.
  revert st. induction ws as [|[t' it] ws IH]; intros st Hquiet Hpure Hne Hnd.
  { simpl. by rewrite app_nil_r. }
  destruct (quiet_cons (t', it) ws st Hquiet) as (Hout & Hstep & Hrest).
  simpl in Hout, Hstep.
  assert (Hpure1 : Forall (pure_tag t) (process_item compare t' st.1 it).1).
  { apply Forall_lookup. intros j g Hj.
    destruct (foldl_work_extends ws (process_work compare st (t', it)) j g)
      as (g' & Hg' & Hext); [by rewrite Hstep|].
    eapply pure_tag_extends; [done|].
    by apply (Forall_lookup_1 _ _ j _ Hpure). }
  assert (Hocc : occurrences_of t ((t', it) :: ws)
                 = (if decide (t' = t) then [it] else []) ++ occurrences_of t ws).
  { unfold occurrences_of. case_decide.
    - by rewrite filter_cons_True.
    - by rewrite filter_cons_False. }
  rewrite Hocc, fmap_app in Hnd |- *.
  assert (Hfresh : t' = t → endpoint_of it ∉ tagged_endpoints t st.1).
  { intros Heq Hin. rewrite decide_True in Hnd by done.
    apply NoDup_app in Hnd as (_ & Hdisj & _). apply (Hdisj _ Hin).
    apply elem_of_app. left. apply list_elem_of_here. }
  pose proof (process_item_tagged t t' st.1 it Hout Hpure1 Hne Hfresh) as Hstep'.
  cbn [foldl] in Hpure |- *. rewrite Hstep in Hrest, Hpure |- *.
  assert (Hnd' : NoDup (tagged_endpoints t (process_item compare t' st.1 it).1
                        ++ (endpoint_of <$> occurrences_of t ws))).
  { rewrite Hstep', <-(assoc_L (++)). by destruct (decide (t' = t)). }
  rewrite (IH ((process_item compare t' st.1 it).1, st.2) Hrest Hpure
              (process_item_tags_nonempty t' st.1 it Hne) Hnd').
  cbn [fst]. rewrite Hstep', <-(assoc_L (++)). by destruct (decide (t' = t)).
Qed.

(** On a run that prints nothing and leaves no group with both tags, the
    groups that carry a tag hold exactly the triples of the occurrences of that
    direction, when these are pairwise distinct. *)
Lemma groupBySchema_tagged_exact array t :
  (groupBySchema_run compare array).2 = [] →
  unmixed (groupBySchema compare array) →
  NoDup (endpoint_of <$> selected t array) →
  tagged_endpoints t (groupBySchema compare array) ≡ₚ endpoint_of <$> selected t array.
Proof.
  intros Hquiet Hsep Hnd.
  unfold groupBySchema in *. rewrite groupBySchema_run_work in *.
  rewrite (foldl_work_exact t (work_list array) ([], []));
    [by rewrite occurrences_of_work_list | done | | constructor
    | by rewrite occurrences_of_work_list].
  eapply Forall_impl; [apply Hsep|]. intros g Hg Hin t' Ht'.
  destruct Hg as [Hg|Hg]; rewrite Hg in Hin, Ht';
    apply list_elem_of_singleton in Hin, Ht'; congruence.
Qed.

Lemma groupBySchema_request_free array :
  selected Req array = [] →
  Forall (λ g, message_type g = [Res]) (groupBySchema compare array).
Proof.
  intros Hreq.
  assert (groupBySchema compare array
          = (run_items compare Res (selected Res array) ([], [])).1) as ->.
  { unfold groupBySchema, groupBySchema_run, processType. by rewrite Hreq. }
  apply run_items_single_tag. constructor.
Qed.

Lemma tagged_endpoints_single_tag t grouped :
  Forall (λ g, message_type g = [t]) grouped →
  tagged_endpoints t grouped = all_endpoints grouped.
Proof.
  intros Htag. unfold tagged_endpoints. f_equal.
  induction Htag as [|g grouped Hg _ IH]; [done|].
  rewrite filter_cons_True by (rewrite Hg; apply list_elem_of_here).
  by rewrite IH.
Qed.

(** C6, as the code has it. On an array whose run prints no error (no
    comparison threw), every occurrence with a truthy body schema is accounted
    for by at least one group: a group that holds its triple and its direction
    tag and whose representative is its fragment or compared equivalent to it.
    The endpoint entries of all the groups are at most as many as the
    occurrences of both directions. For each direction whose occurrences have
    pairwise distinct triples, the groups that carry its tag hold at least as
    many endpoint entries as there are occurrences in it; and when no group
    carries both tags they hold exactly the triples of those occurrences, each
    once, so that the sum of their sizes is the number of occurrences. An
    array without request occurrences is such a case: every group carries the
    response tag alone. *)
Theorem occurrences_are_accounted_for (array : list item) :
  (groupBySchema_run compare array).2 = [] →
  (∀ t it, it ∈ array → truthy (body_schema t it) = true →
     ∃ g, g ∈ groupBySchema compare array ∧ accounts_for compare t it g)
  ∧ (endpoints_total (groupBySchema compare array)
     ≤ length (selected Res array) + length (selected Req array))%nat
  ∧ (∀ t, NoDup (endpoint_of <$> selected t array) →
       (length (selected t array)
        ≤ endpoints_in_direction t (groupBySchema compare array))%nat
       ∧ (unmixed (groupBySchema compare array) →
          tagged_endpoints t (groupBySchema compare array)
            ≡ₚ endpoint_of <$> selected t array
          ∧ endpoints_in_direction t (groupBySchema compare array)
            = length (selected t array)))
  ∧ (selected Req array = [] →
     unmixed (groupBySchema compare array)
     ∧ endpoints_in_direction Req (groupBySchema compare array) = 0).
Proof.
  intros Hquiet.
  assert (Hcover : ∀ t it, it ∈ array → truthy (body_schema t it) = true →
            ∃ g, g ∈ groupBySchema compare array ∧ accounts_for compare t it g).
  { intros t it Hin Ht. unfold groupBySchema. rewrite groupBySchema_run_work in *.
    destruct (foldl_work_accounts (work_list array) ([], []) t it Hquiet)
      as (j & g & Hj & Hacc); [by apply work_list_elem_of|].
    exists g. split; [by eapply list_elem_of_lookup_2 | done]. }
  split_and!.
  - done.
  - unfold groupBySchema, groupBySchema_run, processType.
    etrans; [apply run_items_total_bound|].
    pose proof (run_items_total_bound Res (selected Res array) ([], [])) as Hres.
    change (endpoints_total (@nil group, @nil jsval).1) with 0 in Hres. lia.
  - intros t Hnd. split.
    + rewrite endpoints_in_direction_length, <-(length_fmap endpoint_of).
      apply submseteq_length, NoDup_submseteq; [done|].
      intros e (it & -> & [Ht Hin]%list_elem_of_filter)%list_elem_of_fmap.
      apply Is_true_true in Ht.
      destruct (Hcover t it Hin Ht) as (g & Hg & He & Htag & _).
      by eapply tagged_endpoints_holds.
    + intros Hsep.
      pose proof (groupBySchema_tagged_exact array t Hquiet Hsep Hnd) as Hperm.
      split; [done|].
      by rewrite endpoints_in_direction_length, Hperm, length_fmap.
  - intros Hreq.
    pose proof (groupBySchema_request_free array Hreq) as Htag.
    split.
    + eapply Forall_impl; [apply Htag|]. intros g Hg. by left.
    + by rewrite (endpoints_in_direction_single_tag Res Req _ Htag), decide_False.
Qed.

End Coverage.

(** C6, on a sample: two operations answer with a string, and one of them
    takes an integer as its request body. The comparator is one that throws on
    what is not a schema; here it never does. *)
Lemma occurrences_are_accounted_for_witness :
  let array :=
    [ sample_item "/a" "get" "200" (Some (json_body (type_schema "string"))) None;
      sample_item "/b" "post" "201" (Some (json_body (type_schema "string")))
                  (Some (json_body (type_schema "integer"))) ] in
  (groupBySchema_run guarded_compare array).2 = []
  ∧ (∀ t it, it ∈ array → truthy (body_schema t it) = true →
       ∃ g, g ∈ groupBySchema guarded_compare array
            ∧ accounts_for guarded_compare t it g)
  ∧ (endpoints_total (groupBySchema guarded_compare array)
     ≤ length (selected Res array) + length (selected Req array))%nat
  ∧ (∀ t, NoDup (endpoint_of <$> selected t array) →
       (length (selected t array)
        ≤ endpoints_in_direction t (groupBySchema guarded_compare array))%nat
       ∧ (unmixed (groupBySchema guarded_compare array) →
          tagged_endpoints t (groupBySchema guarded_compare array)
            ≡ₚ endpoint_of <$> selected t array
          ∧ endpoints_in_direction t (groupBySchema guarded_compare array)
            = length (selected t array)))
  ∧ (selected Req array = [] →
     unmixed (groupBySchema guarded_compare array)
     ∧ endpoints_in_direction Req (groupBySchema guarded_compare array) = 0).
Proof.
  intros array. split; [reflexivity|].
  apply (occurrences_are_accounted_for guarded_compare array). reflexivity.
Defined.

(** C6 as the specification words it fails: the request body of [/a]
    has the schema of the response of [/b], so the second group holds the
    triple of [/a] as well, under both tags. The triple of [/a] is then in two
    groups, and the groups tagged as responses hold three endpoint entries for
    two response occurrences. *)
Lemma endpoint_counts_do_not_match_occurrences :
  let array :=
    [ sample_item "/a" "get" "200" (Some (json_body (type_schema "string")))
                  (Some (json_body (type_schema "integer")));
      sample_item "/b" "get" "200" (Some (json_body (type_schema "integer"))) None ] in
  groupBySchema strict_compare array
    = [ Group (type_schema "string") [Endpoint "get" "/a" "200"] [Res];
        Group (type_schema "integer")
              [Endpoint "get" "/b" "200"; Endpoint "get" "/a" "200"] [Res; Req] ]
  ∧ length (selected Res array) = 2
  ∧ endpoints_in_direction Res (groupBySchema strict_compare array) = 3
  ∧ length (selected Req array) = 1
  ∧ endpoints_in_direction Req (groupBySchema strict_compare array) = 2.
Proof. intros array. split_and!; reflexivity. Qed.

(** ** Normalization and extraction *)

Section Extraction.

Variable convertObj : json → outcome jsval.

Lemma getopt_Some (v : json) (k : string) : getopt (Some v) k = prop v k.
Proof. by destruct v. Qed.

Lemma normalize_marker (derefApi : json) :
  derefApi ≠ JNull →
  truthy (prop derefApi "openapi") = true →
  normalize convertObj derefApi = Ret (Some derefApi).
Proof.
  intros Hnn Hm. unfold normalize.
  destruct derefApi; try done; simpl in *; by rewrite Hm.
Qed.

Lemma convert2V3_2_fallback (api : json) (e : jsval) (options partial : json) :
  convertObj api = Throw e →
  get e "options" = Ret (Some options) →
  options ≠ JNull →
  prop options "openapi" = Some partial →
  convert2V3_2 convertObj api = Ret (Some partial).
Proof.
  intros Hc Ho Hnn Hp. unfold convert2V3_2. rewrite Hc. simpl. rewrite Ho. simpl.
  destruct options; try done; simpl in *; by rewrite Hp.
Qed.

Lemma harvest_lacks_paths (spec : jsval) :
  lacks_paths spec → ∃ e, harvest spec = Throw e.
Proof.
  unfold lacks_paths, harvest.
  destruct spec as [[]|]; simpl; try (by eexists);
    intros [-> | ->]; simpl; by eexists.
Qed.

(** C9, as the code has it. When the normalized document has no [paths]
    mapping, reading its entries throws inside [extractSchemas], which catches
    the error and returns [null]: no occurrence list is produced, not even an
    empty one. *)
Theorem extractSchemas_without_paths_is_null (derefApi : json) (spec : jsval) :
  normalize convertObj derefApi = Ret spec →
  lacks_paths spec →
  extractSchemas convertObj derefApi = None.
Proof.
  intros Hn Hl. unfold extractSchemas. rewrite Hn. simpl.
  destruct (harvest_lacks_paths spec Hl) as [e ->]. done.
Qed.

End Extraction.

(** C9, on a sample: a document in the current version without [paths]. *)
Lemma extractSchemas_without_paths_is_null_witness :
  extractSchemas rejecting_convertObj
    (JObj [("openapi", JStr "3.0.0"); ("info", JObj [])]) = None.
Proof.
  apply (extractSchemas_without_paths_is_null rejecting_convertObj
           (JObj [("openapi", JStr "3.0.0"); ("info", JObj [])])
           (Some (JObj [("openapi", JStr "3.0.0"); ("info", JObj [])]))).
  - reflexivity.
  - left. reflexivity.
Defined.

(** C9 as the specification words it fails: for a document without
    [paths] the extraction yields [null], not an empty occurrence list, and
    the caller, which destructures the result, throws before the grouping
    engine is called. *)
Lemma missing_paths_is_not_zero_occurrences :
  let doc := JObj [("openapi", JStr "3.0.0"); ("info", JObj [])] in
  extractSchemas rejecting_convertObj doc = None
  ∧ extractSchemas rejecting_convertObj doc
    ≠ Some {| schemas := []; converted := Some doc |}
  ∧ computeSizeMetrics_groupedSchemas strict_compare rejecting_convertObj doc
    = Throw TypeError
  ∧ computeSizeMetrics_groupedSchemas strict_compare rejecting_convertObj doc
    ≠ Ret (groupBySchema strict_compare []).
Proof. intros doc. split_and!; [reflexivity | discriminate | reflexivity | discriminate]. Qed.

(** C8: the behaviour at the failing input. The converter rejects a
    Swagger 1.2 document with an error that has no [options]; the handler of
    [convert2V3_2] then reads [openapi] of [undefined] and throws in its turn,
    where the claim has the original document returned: the error leaves
    [convert2V3_2] and the normalization, and [extractSchemas] returns
    [null]. With an error whose [options] carry a partial document, that
    document is returned, and a document that has the version marker is
    returned unchanged without a conversion. The older [convert2V3] does
    return the original document when its conversion fails. *)
Theorem convert2V3_2_throws_without_partial_output :
  let doc := JObj [("swagger", JStr "1.2"); ("paths", JObj [])] in
  convert2V3_2 rejecting_convertObj doc = Throw TypeError
  ∧ normalize rejecting_convertObj doc = Throw TypeError
  ∧ normalize rejecting_convertObj doc ≠ Ret (Some doc)
  ∧ extractSchemas rejecting_convertObj doc = None
  ∧ normalize (partial_convertObj (one_operation_doc "/a" "get" (JObj []))) doc
    = Ret (Some (one_operation_doc "/a" "get" (JObj [])))
  ∧ normalize rejecting_convertObj (one_operation_doc "/a" "get" (JObj []))
    = Ret (Some (one_operation_doc "/a" "get" (JObj [])))
  ∧ convert2V3 failing_post doc = Ret (Some doc).
Proof.
  intros doc.
  split_and!; [reflexivity | reflexivity | discriminate | reflexivity..].
Qed.

(** ** One request body, several status codes *)






Section SameFragment.

Variable compare : json → json → outcome bool.



End SameFragment.

Section OneOperation.

Variable compare : json → json → outcome bool.
Variable convertObj : json → outcome jsval.

Lemma extractSchemas_current (doc : json) (items : list item) :
  normalize convertObj doc = Ret (Some doc) →
  harvest (Some doc) = Ret items →
  extractSchemas convertObj doc = Some {| schemas := items; converted := Some doc |}.
Proof. intros Hn Hh. unfold extractSchemas. rewrite Hn. run_outcome. by rewrite Hh. Qed.



End OneOperation.

(** * Further properties of the grouping *)

Section GroupInvariants.

Variable compare : json → json → outcome bool.

(** A property of the group list that the empty list has and that every
    turn of the loop keeps holds of the result. *)
Lemma run_items_invariant (P : list group → Prop) t items st :
  P st.1 →
  (∀ grouped it, it ∈ items → P grouped → P (process_item compare t grouped it).1) →
  P (run_items compare t items st).1.
Proof.
  revert st. induction items as [|it items IH]; intros st Hst Hstep; [done|].
  rewrite run_items_cons. apply IH; simpl.
  - apply Hstep; [by left | done].
  - intros grouped it' Hit'. apply Hstep. by right.
Qed.

Lemma groupBySchema_invariant (P : list group → Prop) array :
  P [] →
  (∀ t grouped it,
     it ∈ selected t array → P grouped → P (process_item compare t grouped it).1) →
  P (groupBySchema compare array).
Proof.
  intros Hnil Hstep. unfold groupBySchema, groupBySchema_run, processType.
  apply run_items_invariant; [|by apply Hstep].
  apply run_items_invariant; [done | by apply Hstep].
Qed.

Lemma selected_elem_of t array it :
  it ∈ selected t array ↔ it ∈ array ∧ truthy (body_schema t it) = true.
Proof. unfold selected. rewrite list_elem_of_filter, Is_true_true. tauto. Qed.

Lemma fragment_truthy (s : json) :
  truthy (Some s) = true → truthy (Some (fragment s)) = true.
Proof.
  intros Hs. unfold fragment. destruct (prop s "items") as [i|]; [|done].
  by destruct (truthy (Some i)) eqn:Hi.
Qed.

Lemma currentSchema_truthy t it :
  truthy (body_schema t it) = true → truthy (Some (currentSchema t it)) = true.
Proof.
  intros Ht. unfold currentSchema.
  destruct (body_schema t it) as [s|]; [by apply fragment_truthy | done].
Qed.

(** No group is empty: each holds at least one endpoint and one direction
    tag. *)
Theorem groups_are_never_empty (array : list item) :
  Forall (λ g, endpoints g ≠ [] ∧ message_type g ≠ []) (groupBySchema compare array).
Proof.
  apply groupBySchema_invariant; [constructor|].
  intros t grouped it _ Hok. unfold process_item.
  destruct (findSimilarSchema compare grouped (currentSchema t it))
    as [[[i g]|]|e]; simpl; [| |done].
  - apply Forall_alter; [done|]. intros g' _ _.
    destruct (updateGroupedSchema_holds it t g') as [He Hm].
    split; intros Heq; rewrite Heq in *; by eapply not_elem_of_nil.
  - unfold addNewSchema. apply Forall_app. split; [done|].
    by apply Forall_singleton.
Qed.

(** Every representative is the fragment of an occurrence of the array,
    and it is truthy. *)
Theorem representatives_are_fragments (array : list item) :
  Forall (λ g, truthy (Some (schema g)) = true
               ∧ ∃ t it, it ∈ array ∧ truthy (body_schema t it) = true
                         ∧ schema g = currentSchema t it)
         (groupBySchema compare array).
Proof.
  apply groupBySchema_invariant; [constructor|].
  intros t grouped it Hit Hok. unfold process_item.
  destruct (findSimilarSchema compare grouped (currentSchema t it))
    as [[[i g]|]|e]; simpl; [| |done].
  - apply Forall_alter; [done|]. by intros g' _ Hg'.
  - unfold addNewSchema. apply Forall_app. split; [done|].
    apply Forall_singleton. simpl. apply selected_elem_of in Hit as [Hin Ht].
    split; [by apply currentSchema_truthy | by exists t, it].
Qed.

(** Every endpoint entry and every direction tag of a group is backed by an
    occurrence of the array that the group accounts for: an occurrence with
    that triple, respectively that direction, whose fragment is the
    representative or compared equivalent to it. *)
Theorem group_entries_are_backed_by_occurrences (array : list item) :
  Forall (λ g,
            (∀ e, e ∈ endpoints g →
               ∃ t it, it ∈ array ∧ truthy (body_schema t it) = true
                       ∧ endpoint_of it = e ∧ accounts_for compare t it g)
            ∧ (∀ t, t ∈ message_type g →
                 ∃ it, it ∈ array ∧ truthy (body_schema t it) = true
                       ∧ accounts_for compare t it g))
         (groupBySchema compare array).
Proof.
  apply groupBySchema_invariant; [constructor|].
  intros t grouped it Hit Hok.
  apply selected_elem_of in Hit as [Hin Ht].
  destruct (findSimilarSchema compare grouped (currentSchema t it))
    as [[[i g]|]|e] eqn:Hf.
  - rewrite (process_item_merge compare t grouped it i g Hf). simpl.
    apply findSimilarSchema_Some_inv in Hf as (Hi & Htrue & _).
    destruct (updateGroupedSchema_holds it t g) as [Hhe Hht].
    assert (Hnew : accounts_for compare t it (updateGroupedSchema it t g))
      by (split_and!; [done | done | by right]).
    apply Forall_insert; [done|].
    pose proof (Forall_lookup_1 _ _ _ _ Hok Hi) as [Hends Htags]. split.
    + intros e He. rewrite updateGroupedSchema_endpoints in He.
      assert (Hcases : e ∈ endpoints g ∨ e = endpoint_of it).
      { case_decide; [by left|]. apply elem_of_app in He as [?|?%list_elem_of_singleton]; auto. }
      destruct Hcases as [Hold| ->].
      * destruct (Hends e Hold) as (t' & it' & ? & ? & ? & Hacc).
        exists t', it'. split_and!; [done..|].
        eapply accounts_for_extends; [done | apply updateGroupedSchema_extends].
      * by exists t, it.
    + intros t' Ht'. rewrite updateGroupedSchema_message_type in Ht'.
      assert (Hcases : t' ∈ message_type g ∨ t' = t).
      { case_decide; [by left|]. apply elem_of_app in Ht' as [?|?%list_elem_of_singleton]; auto. }
      destruct Hcases as [Hold| ->].
      * destruct (Htags t' Hold) as (it' & ? & ? & Hacc).
        exists it'. split_and!; [done..|].
        eapply accounts_for_extends; [done | apply updateGroupedSchema_extends].
      * by exists it.
  - rewrite (process_item_create compare t grouped it Hf). simpl.
    unfold addNewSchema. apply Forall_app. split; [done|].
    apply Forall_singleton. simpl.
    assert (Hnew : accounts_for compare t it
                     {| schema := currentSchema t it;
                        endpoints := [endpoint_of it]; message_type := [t] |}).
    { split_and!; simpl; [apply list_elem_of_here | apply list_elem_of_here | by left]. }
    split.
    + intros e ->%list_elem_of_singleton. by exists t, it.
    + intros t' ->%list_elem_of_singleton. by exists it.
  - by rewrite (process_item_caught compare t grouped it e Hf).
Qed.

(** What a turn of the loop does to the list of representatives. *)
Lemma process_item_schemas t grouped it :
  schema <$> (process_item compare t grouped it).1 = schema <$> grouped
  ∨ (findSimilarSchema compare grouped (currentSchema t it) = Ret None
     ∧ schema <$> (process_item compare t grouped it).1
       = (schema <$> grouped) ++ [currentSchema t it]).
Proof.
  destruct (findSimilarSchema compare grouped (currentSchema t it))
    as [[[i g]|]|e] eqn:Hf.
  - left. rewrite (process_item_merge compare t grouped it i g Hf). simpl.
    apply findSimilarSchema_Some_inv in Hf as (Hi & _).
    rewrite list_fmap_insert. simpl. apply list_insert_id.
    by rewrite list_lookup_fmap, Hi.
  - right. split; [done|].
    rewrite (process_item_create compare t grouped it Hf). simpl.
    unfold addNewSchema. by rewrite fmap_app.
  - left. by rewrite (process_item_caught compare t grouped it e Hf).
Qed.

Lemma schemas_pairwise_distinct (array : list item) i j gi gj :
  i < j →
  groupBySchema compare array !! i = Some gi →
  groupBySchema compare array !! j = Some gj →
  compare (schema gi) (schema gj) = Ret false.
Proof.
  set (P := λ grouped : list group,
         ∀ i j si sj, i < j →
           (schema <$> grouped) !! i = Some si →
           (schema <$> grouped) !! j = Some sj →
           compare si sj = Ret false).
  assert (HP : P (groupBySchema compare array)).
  { apply groupBySchema_invariant; [by intros ? ? si sj _ [=]|].
    intros t grouped it _ Hok.
    destruct (process_item_schemas t grouped it) as [Heq|[Hf Heq]];
      unfold P; rewrite Heq; [done|].
    intros i' j' si sj Hlt Hi Hj.
    apply lookup_app_Some in Hj as [Hj|[Hge Hj]].
    - apply (Hok i' j'); [done | | done].
      apply lookup_app_Some in Hi as [Hi|[Hge _]]; [done|].
      apply lookup_lt_Some in Hj. lia.
    - apply list_lookup_singleton_Some in Hj as [Hj0 <-].
      apply lookup_app_Some in Hi as [Hi|[Hge' _]]; [|lia].
      apply list_lookup_fmap_Some in Hi as (g' & -> & Hg').
      eapply findSimilarSchema_None_inv; [done|]. by eapply list_elem_of_lookup_2. }
  intros Hlt Hi Hj.
  apply (HP i j); [done | by rewrite list_lookup_fmap, Hi | by rewrite list_lookup_fmap, Hj].
Qed.

(** No representative compares equivalent to a later one: the comparison
    of an earlier group's representative against a later group's returned
    [false] when the later group was created, and representatives never
    change. *)
Theorem representatives_are_pairwise_distinct (array : list item) :
  ∀ i j gi gj,
    i < j →
    groupBySchema compare array !! i = Some gi →
    groupBySchema compare array !! j = Some gj →
    compare (schema gi) (schema gj) = Ret false.
Proof. intros i j gi gj. apply schemas_pairwise_distinct. Qed.

(** The direction tags record the order of the two passes: the groups the
    response pass created come first and are tagged [res] or [res, req]; the
    groups the request pass created follow and are tagged [req] only. *)
Theorem direction_tags_follow_the_passes (array : list item) :
  ∃ G1 G2,
    groupBySchema compare array = G1 ++ G2
    ∧ length G1 = length (processType compare Res array ([], [])).1
    ∧ Forall (λ g, message_type g = [Res] ∨ message_type g = [Res; Req]) G1
    ∧ Forall (λ g, message_type g = [Req]) G2.
Proof.
  unfold groupBySchema, groupBySchema_run.
  set (R := processType compare Res array ([], [])).
  assert (HR : Forall (λ g, message_type g = [Res]) R.1).
  { unfold R, processType. apply run_items_single_tag. constructor. }
  unfold processType at 1.
  apply (run_items_invariant
           (λ grouped, ∃ G1 G2, grouped = G1 ++ G2 ∧ length G1 = length R.1
              ∧ Forall (λ g, message_type g = [Res] ∨ message_type g = [Res; Req]) G1
              ∧ Forall (λ g, message_type g = [Req]) G2)).
  - exists R.1, []. split_and!; [by rewrite app_nil_r | done | | constructor].
    eapply Forall_impl; [done|]. by left.
  - intros grouped it _ (G1 & G2 & -> & Hlen & H1 & H2).
    destruct (findSimilarSchema compare (G1 ++ G2) (currentSchema Req it))
      as [[[i g]|]|e] eqn:Hf.
    + rewrite (process_item_merge compare Req _ it i g Hf). simpl.
      apply findSimilarSchema_Some_inv in Hf as (Hi & _).
      apply lookup_app_Some in Hi as [Hi|[Hge Hi]].
      * exists (<[i := updateGroupedSchema it Req g]> G1), G2.
        split_and!; [| by rewrite length_insert | | done].
        { apply insert_app_l. by eapply lookup_lt_Some. }
        apply Forall_insert; [done|]. right.
        rewrite updateGroupedSchema_message_type.
        destruct (Forall_lookup_1 _ _ _ _ H1 Hi) as [-> | ->]; reflexivity.
      * exists G1, (<[i - length G1 := updateGroupedSchema it Req g]> G2).
        split_and!; [| done | done |].
        { by apply insert_app_r_alt. }
        apply Forall_insert; [done|].
        rewrite updateGroupedSchema_message_type, (Forall_lookup_1 _ _ _ _ H2 Hi).
        rewrite decide_True; [done | apply list_elem_of_here].
    + rewrite (process_item_create compare Req _ it Hf). simpl.
      unfold addNewSchema. eexists G1, (G2 ++ [_]).
      split_and!; [by rewrite (assoc_L (++)) | done | done |].
      apply Forall_app. split; [done|]. by apply Forall_singleton.
    + rewrite (process_item_caught compare Req _ it e Hf). simpl.
      by exists G1, G2.
Qed.

(** Every printed error was thrown by the comparison of a final group's
    representative with the fragment of an occurrence of the work list. *)
Lemma foldl_work_errors ws st e :
  e ∈ (foldl (process_work compare) st ws).2 →
  e ∈ st.2
  ∨ ∃ g t it, g ∈ (foldl (process_work compare) st ws).1 ∧ (t, it) ∈ ws
              ∧ compare (schema g) (currentSchema t it) = Throw e.
Proof.
  revert st. induction ws as [|[t it] ws IH]; intros st He; [by left|].
  cbn [foldl] in He |- *.
  destruct (IH _ He) as [Hin|(g & t' & it' & Hg & Hw & Hthrow)].
  - unfold process_work in Hin. cbn [fst snd] in Hin.
    destruct (findSimilarSchema compare st.1 (currentSchema t it))
      as [[[i g]|]|e'] eqn:Hf.
    + rewrite (process_item_merge compare t st.1 it i g Hf) in Hin.
      simpl in Hin. rewrite app_nil_r in Hin. by left.
    + rewrite (process_item_create compare t st.1 it Hf) in Hin.
      simpl in Hin. rewrite app_nil_r in Hin. by left.
    + rewrite (process_item_caught compare t st.1 it e' Hf) in Hin.
      simpl in Hin. apply elem_of_app in Hin as [Hin|Hin]; [by left|].
      apply list_elem_of_singleton in Hin as ->. right.
      apply findSimilarSchema_Throw_inv in Hf as (g & Hg & Hthrow).
      apply list_elem_of_lookup in Hg as [j Hj].
      destruct (process_item_extends compare t st.1 it j g Hj) as (g1 & Hg1 & Hext1).
      destruct (foldl_work_extends compare ws (process_work compare st (t, it)) j g1)
        as (g2 & Hg2 & Hext2).
      { unfold process_work. cbn [fst snd].
        by destruct (process_item compare t st.1 it). }
      exists g2, t, it. split_and!.
      * by eapply list_elem_of_lookup_2.
      * apply list_elem_of_here.
      * destruct Hext1 as [Hs1 _], Hext2 as [Hs2 _]. by rewrite Hs2, Hs1.
  - right. exists g, t', it'. split_and!; [done | by apply list_elem_of_further | done].
Qed.

(** Every occurrence is either skipped with one error printed, or merged,
    or made into one new group: groups and printed errors together are at most
    as many as the occurrences. Every printed error is what the comparison of a
    group's representative with the fragment of an occurrence threw; so nothing
    is printed when none of these comparisons throws. *)
Theorem groups_and_errors_are_bounded (array : list item) :
  (length (groupBySchema_run compare array).1
   + length (groupBySchema_run compare array).2
   ≤ length (selected Res array) + length (selected Req array))%nat
  ∧ (∀ e, e ∈ (groupBySchema_run compare array).2 →
       ∃ g t it, g ∈ groupBySchema compare array
                 ∧ it ∈ array ∧ truthy (body_schema t it) = true
                 ∧ compare (schema g) (currentSchema t it) = Throw e)
  ∧ ((∀ g t it, g ∈ groupBySchema compare array →
                it ∈ array → truthy (body_schema t it) = true →
                ∃ r, compare (schema g) (currentSchema t it) = Ret r) →
     (groupBySchema_run compare array).2 = []).
Proof.
  assert (Hstep : ∀ t grouped it,
            (length (process_item compare t grouped it).1
             + length (process_item compare t grouped it).2 ≤ S (length grouped))%nat).
  { intros t grouped it. unfold process_item.
    destruct (findSimilarSchema compare grouped (currentSchema t it))
      as [[[i g]|]|e]; simpl.
    - rewrite length_alter. lia.
    - unfold addNewSchema. rewrite length_app. simpl. lia.
    - lia. }
  assert (Hrun : ∀ t items st,
            (length (run_items compare t items st).1
             + length (run_items compare t items st).2
             ≤ length st.1 + length st.2 + length items)%nat).
  { intros t items. induction items as [|it items IH]; intros st; [simpl; lia|].
    rewrite run_items_cons. etrans; [apply IH|]. simpl.
    rewrite length_app. pose proof (Hstep t st.1 it). lia. }
  assert (Hthrown : ∀ e, e ∈ (groupBySchema_run compare array).2 →
            ∃ g t it, g ∈ groupBySchema compare array
                      ∧ it ∈ array ∧ truthy (body_schema t it) = true
                      ∧ compare (schema g) (currentSchema t it) = Throw e).
  { intros e He. unfold groupBySchema. rewrite groupBySchema_run_work in *.
    destruct (foldl_work_errors _ _ _ He) as [Hin|(g & t & it & Hg & Hw & Hthrow)].
    { by apply elem_of_nil in Hin. }
    apply work_list_elem_of in Hw as [Hin Ht]. by exists g, t, it. }
  split_and!.
  - unfold groupBySchema_run, processType.
    etrans; [apply Hrun|].
    pose proof (Hrun Res (selected Res array) ([], [])) as H0. simpl in H0. lia.
  - done.
  - intros Hret.
    destruct (groupBySchema_run compare array).2 as [|e out] eqn:Hlog; [done|].
    destruct (Hthrown e) as (g & t & it & Hg & Hin & Ht & Hthrow).
    { apply list_elem_of_here. }
    destruct (Hret g t it Hg Hin Ht) as [r Hr]. congruence.
Qed.

(** An item that has no JSON body schema in either direction changes
    nothing, and the result has no group exactly when no item of the array has
    a JSON body schema: the first occurrence the loop meets always creates a
    group, no comparison being made against an empty list. *)
Theorem groups_arise_from_schemas_only (array : list item) :
  (∀ before it after,
     array = before ++ it :: after →
     truthy (body_schema Res it) = false →
     truthy (body_schema Req it) = false →
     groupBySchema_run compare array = groupBySchema_run compare (before ++ after))
  ∧ (groupBySchema compare array = []
     ↔ selected Res array = [] ∧ selected Req array = []).
Proof.
  split.
  - intros before it after -> Hres Hreq.
    assert (Hsel : ∀ t, truthy (body_schema t it) = false →
              selected t (before ++ it :: after) = selected t (before ++ after)).
    { intros t Ht. unfold selected. rewrite !filter_app.
      by rewrite filter_cons_False by (rewrite Ht; exact id). }
    unfold groupBySchema_run, processType. by rewrite !Hsel.
  - assert (Hgrow : ∀ t items st, st.1 ≠ [] → (run_items compare t items st).1 ≠ []).
    { intros t items st Hst. apply run_items_invariant; [done|].
      intros grouped it _ Hne. unfold process_item.
      destruct (findSimilarSchema compare grouped (currentSchema t it))
        as [[[i g]|]|e]; simpl; [| |done].
      - intros Heq. apply (f_equal length) in Heq. rewrite length_alter in Heq.
        by destruct grouped.
      - unfold addNewSchema. by intros ?%app_nil_r_inv%eq_sym%nil_cons. }
    assert (Hfirst : ∀ t it items out,
              (run_items compare t (it :: items) ([], out)).1 ≠ []).
    { intros t it items out. rewrite run_items_cons. apply Hgrow. simpl.
      unfold process_item, addNewSchema. simpl. discriminate. }
    unfold groupBySchema, groupBySchema_run, processType. split.
    + intros Hnil.
      destruct (selected Res array) as [|it1 items1] eqn:Hres.
      * split; [done|]. destruct (selected Req array) as [|it2 items2]; [done|].
        by destruct (Hfirst Req it2 items2 []).
      * destruct (Hgrow Req (selected Req array)
                    (run_items compare Res (it1 :: items1) ([], [])));
          [apply Hfirst | done].
    + by intros [-> ->].
Qed.

End GroupInvariants.

(** The groups of the two-path sample and the pair of indices [0 < 1]. *)
Lemma representatives_are_pairwise_distinct_witness :
  strict_compare (type_schema "string") (type_schema "integer") = Ret false.
Proof.
  apply (representatives_are_pairwise_distinct strict_compare
           [ sample_item "/a" "get" "200" (Some (json_body (type_schema "string")))
                         (Some (json_body (type_schema "integer")));
             sample_item "/b" "get" "200" (Some (json_body (type_schema "integer"))) None ]
           0 1
           (Group (type_schema "string") [Endpoint "get" "/a" "200"] [Res])
           (Group (type_schema "integer")
                  [Endpoint "get" "/b" "200"; Endpoint "get" "/a" "200"] [Res; Req]));
    [lia | reflexivity | reflexivity].
Defined.

(** ** Grouping by an equivalence *)

Section Partition.

Variable compare : json → json → outcome bool.
Variable equiv : json → json → bool.

Hypothesis compare_equiv : ∀ a b, compare a b = Ret (equiv a b).
Hypothesis equiv_refl : ∀ a, equiv a a = true.
Hypothesis equiv_sym : ∀ a b, equiv a b = true → equiv b a = true.
Hypothesis equiv_trans : ∀ a b c, equiv a b = true → equiv b c = true → equiv a c = true.

Lemma accounts_for_equiv t it g :
  accounts_for compare t it g → equiv (schema g) (currentSchema t it) = true.
Proof.
  intros (_ & _ & [-> | Hc]); [apply equiv_refl|].
  rewrite compare_equiv in Hc. by injection Hc.
Qed.

(** When the comparator decides an equivalence relation and never throws,
    the groups are its classes: two occurrences are accounted for by one and
    the same group exactly when their fragments are equivalent. *)
Theorem equivalent_occurrences_share_their_group
    (array : list item) (t1 t2 : msg_type) (it1 it2 : item) :
  it1 ∈ array → truthy (body_schema t1 it1) = true →
  it2 ∈ array → truthy (body_schema t2 it2) = true →
  (∃ g, g ∈ groupBySchema compare array
        ∧ accounts_for compare t1 it1 g ∧ accounts_for compare t2 it2 g)
  ↔ equiv (currentSchema t1 it1) (currentSchema t2 it2) = true.
Proof.
  intros Hin1 Ht1 Hin2 Ht2. split.
  - intros (g & _ & Ha1%accounts_for_equiv & Ha2%accounts_for_equiv).
    eapply equiv_trans; [apply equiv_sym|]; done.
  - intros Heq.
    assert (Htotal : ∀ a b, ∃ r, compare a b = Ret r)
      by (intros a b; rewrite compare_equiv; by eexists).
    destruct (groupBySchema_accounts compare array t1 it1 Htotal) as (g1 & Hg1 & Ha1).
    { by apply selected_elem_of. }
    destruct (groupBySchema_accounts compare array t2 it2 Htotal) as (g2 & Hg2 & Ha2).
    { by apply selected_elem_of. }
    pose proof (accounts_for_equiv _ _ _ Ha1) as He1.
    pose proof (accounts_for_equiv _ _ _ Ha2) as He2.
    assert (He12 : equiv (schema g1) (schema g2) = true).
    { eapply equiv_trans; [|by apply equiv_sym].
      by eapply equiv_trans. }
    apply list_elem_of_lookup in Hg1 as [i Hi]. apply list_elem_of_lookup in Hg2 as [j Hj].
    destruct (lt_eq_lt_dec i j) as [[Hlt| ->]|Hlt].
    + pose proof (schemas_pairwise_distinct compare array i j g1 g2 Hlt Hi Hj) as Hd.
      rewrite compare_equiv in Hd. congruence.
    + assert (g1 = g2) as -> by congruence.
      exists g2. split_and!; [by eapply list_elem_of_lookup_2 | done | done].
    + pose proof (schemas_pairwise_distinct compare array j i g2 g1 Hlt Hj Hi) as Hd.
      rewrite compare_equiv in Hd. apply equiv_sym in He12. congruence.
Qed.

End Partition.

(** The sample of two paths, one returning an object and one an array of
    that object, under the comparator that accepts equal property names. *)
Lemma equivalent_occurrences_share_their_group_witness :
  let a := sample_item "/users" "get" "200" (Some (json_body (type_schema "object"))) None in
  let b := sample_item "/admins" "get" "200"
                       (Some (json_body (array_of (type_schema "object")))) None in
  (∃ g, g ∈ groupBySchema same_keys_compare [a; b]
        ∧ accounts_for same_keys_compare Res a g
        ∧ accounts_for same_keys_compare Res b g)
  ↔ same_keys (currentSchema Res a) (currentSchema Res b) = true.
Proof.
  intros a b.
  apply (equivalent_occurrences_share_their_group same_keys_compare same_keys).
  - reflexivity.
  - intros x. by apply bool_decide_eq_true.
  - unfold same_keys. intros x y ?%bool_decide_eq_true. by apply bool_decide_eq_true.
  - unfold same_keys. intros x y z ?%bool_decide_eq_true ?%bool_decide_eq_true.
    apply bool_decide_eq_true. congruence.
  - apply list_elem_of_here.
  - reflexivity.
  - apply list_elem_of_further, list_elem_of_here.
  - reflexivity.
Defined.

(** * Further properties of the extraction *)

Lemma mapM_Ret_in {A B} (f : A → outcome B) (g : A → B) (l : list A) :
  (∀ x, x ∈ l → f x = Ret (g x)) → mapM f l = Ret (g <$> l).
Proof.
  induction l as [|x l IH]; intros Hf; [done|].
  simpl. rewrite Hf by apply list_elem_of_here. simpl.
  rewrite IH; [done|]. intros y Hy. apply Hf. by right.
Qed.

Lemma mapM_Throw_in {A B} (f : A → outcome B) (l : list A) (x : A) (e : jsval) :
  x ∈ l → f x = Throw e → ∃ e', mapM f l = Throw e'.
Proof.
  intros Hx Hfx. induction l as [|y l IH]; [by apply elem_of_nil in Hx|].
  simpl. apply elem_of_cons in Hx as [<-|Hx].
  - rewrite Hfx. by eexists.
  - destruct (f y); simpl; [|by eexists].
    destruct (IH Hx) as [e' ->]. by eexists.
Qed.

Lemma concat_fmap_bind {A B} (f : A → list B) (l : list A) :
  concat (f <$> l) = l ≫= f.
Proof. induction l as [|x l IH]; [done|]. csimpl. by f_equal. Qed.

Lemma assoc_NoDup (k : string) (v : json) (l : list (string * json)) :
  NoDup l.*1 → (k, v) ∈ l → assoc k l = Some v.
Proof.
  induction l as [|[k' v'] l IH]; intros Hnd Hin; [by apply elem_of_nil in Hin|].
  simpl in *. apply NoDup_cons in Hnd as [Hk' Hnd].
  apply elem_of_cons in Hin as [[= -> ->]|Hin].
  - by rewrite String.eqb_refl.
  - destruct (String.eqb_spec k k') as [->|_]; [|by apply IH].
    destruct Hk'. apply list_elem_of_fmap. by exists (k', v).
Qed.

Lemma get_not_null (v : json) (k : string) :
  v ≠ JNull → get (Some v) k = Ret (prop v k).
Proof. by destruct v. Qed.

Lemma Object_entries_not_null (v : json) :
  v ≠ JNull → Object_entries (Some v) = Ret (own_entries v).
Proof. by destruct v. Qed.

Lemma truthy_not_null (v : jsval) :
  truthy v = true → ∃ o, v = Some o ∧ o ≠ JNull.
Proof. destruct v as [[]|]; try done; by eexists. Qed.

Lemma fmap_bind_comm {A B C} (f : B → C) (g : A → list B) (l : list A) :
  f <$> (l ≫= g) = l ≫= λ x, f <$> g x.
Proof. induction l as [|x l IH]; [done|]. csimpl. rewrite fmap_app. by f_equal. Qed.

Lemma NoDup_keys_inj (l : list (string * json)) (x y : string * json) :
  NoDup l.*1 → x ∈ l → y ∈ l → x.1 = y.1 → x = y.
Proof.
  destruct x as [k v], y as [k' v']. simpl. intros Hnd Hx Hy <-.
  pose proof (assoc_NoDup k v l Hnd Hx). pose proof (assoc_NoDup k v' l Hnd Hy).
  congruence.
Qed.

Lemma emitted_of_path_NoDup (pm : string * json) :
  NoDup (own_entries pm.2).*1 →
  (∀ md, md ∈ own_entries pm.2 →
     NoDup (entries_of (getopt (Some md.2) "responses")).*1) →
  NoDup (endpoint_of <$> emitted_of_path pm).
Proof.
  intros Hnd Hcodes. unfold emitted_of_path. rewrite fmap_bind_comm.
  apply NoDup_bind.
  - intros md1 md2 e [_ Hmd1]%list_elem_of_filter [_ Hmd2]%list_elem_of_filter
      (it1 & -> & (cr1 & -> & _)%list_elem_of_fmap)%list_elem_of_fmap
      (it2 & He & (cr2 & -> & _)%list_elem_of_fmap)%list_elem_of_fmap.
    apply (NoDup_keys_inj _ _ _ Hnd Hmd1 Hmd2). by injection He.
  - intros md [_ Hmd]%list_elem_of_filter.
    rewrite <-list_fmap_compose.
    replace (endpoint_of ∘ item_of pm.1 md.1 md.2 (prop pm.2 "parameters") <$>
             entries_of (getopt (Some md.2) "responses"))
      with (Endpoint md.1 pm.1 <$> (entries_of (getopt (Some md.2) "responses")).*1)
      by (rewrite <-list_fmap_compose; by apply list_fmap_ext).
    apply NoDup_fmap_2; [by intros x y [=] | by apply Hcodes].
  - apply NoDup_filter. by eapply NoDup_fmap_1.
Qed.

Lemma emitted_NoDup (paths : json) :
  distinct_keys paths → NoDup (endpoint_of <$> emitted paths).
Proof.
  intros [Hnd Hlevels]. unfold emitted. rewrite fmap_bind_comm.
  apply NoDup_bind.
  - intros pm1 pm2 e Hpm1 Hpm2
      (it1 & -> & Hit1)%list_elem_of_fmap (it2 & He & Hit2)%list_elem_of_fmap.
    apply (NoDup_keys_inj _ _ _ Hnd Hpm1 Hpm2).
    unfold emitted_of_path in Hit1, Hit2.
    apply list_elem_of_bind in Hit1 as (md1 & (cr1 & -> & _)%list_elem_of_fmap & _).
    apply list_elem_of_bind in Hit2 as (md2 & (cr2 & -> & _)%list_elem_of_fmap & _).
    by injection He.
  - intros pm Hpm.
    destruct (proj1 (Forall_forall _ _) Hlevels pm Hpm) as [Hm Hc].
    apply emitted_of_path_NoDup; [done|]. by apply Forall_forall.
  - by eapply NoDup_fmap_1.
Qed.

Section Harvest.

Variables (spec : jsval) (paths : json).

Hypothesis spec_paths : get spec "paths" = Ret (Some paths).
Hypothesis paths_not_null : paths ≠ JNull.

Lemma response_items_emitted (p m : string) (methods md : json) :
  (p, methods) ∈ own_entries paths →
  NoDup (own_entries paths).*1 →
  methods ≠ JNull →
  truthy (getopt (Some md) "responses") = true →
  response_items spec p m md
  = Ret (item_of p m md (prop methods "parameters")
           <$> entries_of (getopt (Some md) "responses")).
Proof.
  intros Hin Hnd Hnn Hresp.
  destruct (truthy_not_null _ Hresp) as (r & Hr & Hrnn).
  assert (Hmd : md ≠ JNull) by (intros ->; by rewrite getopt_Some in Hr).
  unfold response_items. rewrite Hr, (Object_entries_not_null r Hrnn). run_outcome.
  apply mapM_Ret_in. intros cr _.
  rewrite (get_not_null md _ Hmd), spec_paths. run_outcome.
  rewrite (get_not_null paths _ paths_not_null). run_outcome.
  change (prop paths p) with (assoc p (own_entries paths)).
  rewrite (assoc_NoDup p methods _ Hnd Hin).
  rewrite (get_not_null methods _ Hnn). run_outcome.
  unfold item_of. by rewrite getopt_Some.
Qed.

Lemma path_items_emitted (pm : string * json) :
  pm ∈ own_entries paths →
  NoDup (own_entries paths).*1 →
  pm.2 ≠ JNull →
  path_items spec pm = Ret (emitted_of_path pm).
Proof.
  intros Hin Hnd Hnn. destruct pm as [p methods]. simpl in Hnn.
  unfold path_items, emitted_of_path. cbn [fst snd].
  rewrite (Object_entries_not_null methods Hnn). run_outcome.
  rewrite (mapM_Ret_in _
             (λ md, item_of p md.1 md.2 (prop methods "parameters")
                      <$> entries_of (getopt (Some md.2) "responses"))).
  - run_outcome. by rewrite concat_fmap_bind.
  - intros md [Hmd _]%list_elem_of_filter.
    apply response_items_emitted; [done..|]. by apply Is_true_true.
Qed.

(** On a document whose [paths] is not [null], has distinct keys and no
    [null] path item, the harvest does not throw and yields, in document order,
    one item per path, per operation with truthy [responses], per entry of
    those responses; with a [null] path item it throws. *)
Theorem harvest_emits_one_item_per_response :
  NoDup (own_entries paths).*1 →
  (Forall (λ pm, pm.2 ≠ JNull) (own_entries paths) →
   harvest spec = Ret (emitted paths))
  ∧ (∀ p, (p, JNull) ∈ own_entries paths → ∃ e, harvest spec = Throw e).
Proof.
  intros Hnd. unfold harvest. rewrite spec_paths. run_outcome.
  rewrite (Object_entries_not_null paths paths_not_null). run_outcome. split.
  - intros Hnn. rewrite (mapM_Ret_in _ emitted_of_path).
    + run_outcome. by rewrite concat_fmap_bind.
    + intros pm Hpm. apply path_items_emitted; [done..|].
      by apply (proj1 (Forall_forall _ _) Hnn).
  - intros p Hp.
    destruct (mapM_Throw_in (path_items spec) _ (p, JNull) TypeError Hp) as [e ->];
      [done | by eexists].
Qed.

(** With distinct keys at every level, the (path, method, code) triples of
    the harvested items are pairwise distinct. *)
Theorem harvested_triples_are_distinct :
  distinct_keys paths →
  Forall (λ pm, pm.2 ≠ JNull) (own_entries paths) →
  ∃ items, harvest spec = Ret items ∧ NoDup (endpoint_of <$> items).
Proof.
  intros Hkeys Hnn. exists (emitted paths). split; [|by apply emitted_NoDup].
  unfold harvest. rewrite spec_paths. run_outcome.
  rewrite (Object_entries_not_null paths paths_not_null). run_outcome.
  rewrite (mapM_Ret_in _ emitted_of_path).
  - run_outcome. by rewrite concat_fmap_bind.
  - intros pm Hpm. apply path_items_emitted; [done | apply Hkeys |].
    by apply (proj1 (Forall_forall _ _) Hnn).
Qed.

End Harvest.

(** A document with two paths; the first has a path-level [parameters]
    entry and an operation without [responses]. *)
Lemma harvest_emits_one_item_per_response_witness :
  let paths :=
    JObj [("/a", JObj [("parameters", JArr []);
                       ("get", JObj [("responses",
                                      JObj [("200", json_body (type_schema "string"));
                                            ("404", JObj [])])]);
                       ("put", JObj [("requestBody", json_body (type_schema "string"))])]);
          ("/b", JObj [("post", JObj [("responses", JObj [("201", JObj [])])])])] in
  harvest (Some (JObj [("openapi", JStr "3.0.0"); ("paths", paths)]))
  = Ret (emitted paths).
Proof.
  intros paths.
  apply (harvest_emits_one_item_per_response
           (Some (JObj [("openapi", JStr "3.0.0"); ("paths", paths)])) paths).
  - reflexivity.
  - discriminate.
  - apply (bool_decide_unpack _). exact I.
  - repeat constructor; discriminate.
Defined.

Lemma harvested_triples_are_distinct_witness :
  let paths :=
    JObj [("/a", JObj [("get", JObj [("responses",
                                      JObj [("200", json_body (type_schema "string"));
                                            ("404", JObj [])])])]);
          ("/b", JObj [("get", JObj [("responses", JObj [("200", JObj [])])])])] in
  ∃ items, harvest (Some (JObj [("openapi", JStr "3.0.0"); ("paths", paths)])) = Ret items
           ∧ NoDup (endpoint_of <$> items).
Proof.
  intros paths.
  apply (harvested_triples_are_distinct
           (Some (JObj [("openapi", JStr "3.0.0"); ("paths", paths)])) paths).
  - reflexivity.
  - discriminate.
  - apply (bool_decide_unpack _). exact I.
  - repeat constructor; discriminate.
Defined.

(** ** The request body of an operation *)








Section RequestBodies.

Variable compare : json → json → outcome bool.
Variable convertObj : json → outcome jsval.




End RequestBodies.


(** ** The two converters *)

Lemma json_null_dec (v : json) : {v = JNull} + {v ≠ JNull}.
Proof. destruct v; (by left) || (by right). Qed.

Section Converters.

Variable convertObj : json → outcome jsval.
Variable post : json → outcome jsval.

(** [convert2V3] never throws: it returns [response.data], be it
    [undefined], when the request resolves to a response that is neither
    [undefined] nor [null], and the document it was given in every other
    case. *)
Theorem convert2V3_never_throws (api : json) :
  (∃ response, post api = Ret (Some response) ∧ response ≠ JNull
               ∧ convert2V3 post api = Ret (prop response "data"))
  ∨ ((∀ response, post api = Ret (Some response) → response = JNull)
     ∧ convert2V3 post api = Ret (Some api)).
Proof.
  unfold convert2V3. destruct (post api) as [[response|]|e] eqn:Hpost; simpl.
  - destruct (json_null_dec response) as [->|Hnn].
    + right. split; [by intros ? [= <-] | done].
    + left. exists response. split_and!; [done..|]. by destruct response.
  - right. split; [by intros ? [=] | done].
  - right. split; [by intros ? [=] | done].
Qed.

(** What the normalization yields, case by case. A document with a truthy
    [openapi] is returned as it is and the converter is not consulted.
    Otherwise: a conversion that resolves to options with an [openapi]
    document yields that document; a rejection whose error has [options]
    yields [options.openapi], be it [undefined]; and a [TypeError] leaves the
    normalization when the rejection has no [options], or when the conversion
    resolves to something without an [openapi]. *)
Theorem normalize_outcomes (derefApi : json) :
  derefApi ≠ JNull →
  (truthy (prop derefApi "openapi") = true →
   normalize convertObj derefApi = Ret (Some derefApi))
  ∧ (truthy (prop derefApi "openapi") = false →
     (∀ r out, convertObj derefApi = Ret (Some r) →
               prop r "openapi" = Some out → out ≠ JNull →
               normalize convertObj derefApi = Ret (Some out))
     ∧ (∀ r, convertObj derefApi = Ret r →
             getopt r "openapi" = None ∨ getopt r "openapi" = Some JNull →
             normalize convertObj derefApi = Throw TypeError)
     ∧ (∀ e options, convertObj derefApi = Throw e →
                     getopt e "options" = Some options → options ≠ JNull →
                     normalize convertObj derefApi = Ret (prop options "openapi"))
     ∧ (∀ e, convertObj derefApi = Throw e →
             getopt e "options" = None ∨ getopt e "options" = Some JNull →
             normalize convertObj derefApi = Throw TypeError)).
Proof.
  intros Hnn. unfold normalize. rewrite (get_not_null derefApi _ Hnn). run_outcome.
  split; [by intros -> |]. intros ->. cbn [negb]. unfold convert2V3_2. split_and!.
  - intros r out -> Hout Houtnn.
    assert (r ≠ JNull) by (by intros ->).
    run_outcome. rewrite (get_not_null r) by done. run_outcome. rewrite Hout.
    by rewrite (get_not_null out) by done.
  - intros r -> Hr. run_outcome.
    destruct r as [r|]; [|done].
    destruct (json_null_dec r) as [->|Hr']; [done|].
    rewrite (get_not_null r) by done. run_outcome. rewrite getopt_Some in Hr.
    by destruct Hr as [-> | ->].
  - intros e options -> Ho Honn. unfold try_catch. run_outcome.
    destruct e as [e|]; [|done].
    assert (e ≠ JNull) by (by intros ->).
    rewrite (get_not_null e) by done. run_outcome. rewrite getopt_Some in Ho.
    rewrite Ho. by apply get_not_null.
  - intros e -> He. unfold try_catch. run_outcome.
    destruct e as [e|]; [|done].
    destruct (json_null_dec e) as [->|He']; [done|].
    rewrite (get_not_null e) by done. run_outcome. rewrite getopt_Some in He.
    by destruct He as [-> | ->].
Qed.

End Converters.

(** A Swagger 2.0 document that the converter turns into a document of the
    current version. *)
Lemma normalize_outcomes_witness :
  let doc := JObj [("swagger", JStr "2.0"); ("paths", JObj [])] in
  let out := one_operation_doc "/a" "get" (JObj []) in
  normalize (resolving_convertObj out) doc = Ret (Some out).
Proof.
  intros doc out.
  destruct (normalize_outcomes (resolving_convertObj out) doc) as [_ Hconv];
    [discriminate|].
  destruct (Hconv eq_refl) as (Hresolved & _).
  apply (Hresolved (JObj [("openapi", out)]) out); [reflexivity | reflexivity | discriminate].
Defined.

(** * Properties of the size metrics *)

(** ** The spread of a set *)

Section SetSpread.

Context {A : Type} (eqb : A → A → bool).

Lemma set_spread_from_length (seen l : list A) :
  (length (set_spread_from eqb seen l) ≤ length l)%nat.
Proof.
  revert seen. induction l as [|x l IH]; intros seen; simpl; [lia|].
  destruct (existsb (eqb x) seen); simpl.
  - specialize (IH seen). lia.
  - specialize (IH (seen ++ [x])). lia.
Qed.

Lemma set_spread_from_incl (seen l : list A) (x : A) :
  x ∈ set_spread_from eqb seen l → x ∈ l.
Proof.
  revert seen. induction l as [|y l IH]; intros seen; simpl; [done|].
  destruct (existsb (eqb y) seen).
  - intros Hx. right. by eapply IH.
  - intros [->|Hx]%elem_of_cons; [by left|]. right. by eapply IH.
Qed.

Hypothesis eqb_eq : ∀ x y, eqb x y = true ↔ x = y.

Lemma existsb_eqb_elem_of (x : A) (seen : list A) :
  existsb (eqb x) seen = true ↔ x ∈ seen.
Proof.
  rewrite existsb_exists. split.
  - intros (y & Hy & ->%eqb_eq). by apply list_elem_of_In.
  - intros Hx. exists x. split; [by apply list_elem_of_In | by apply eqb_eq].
Qed.

Lemma set_spread_from_spec (seen l : list A) :
  NoDup (set_spread_from eqb seen l)
  ∧ ∀ x, x ∈ set_spread_from eqb seen l ↔ x ∈ l ∧ x ∉ seen.
Proof.
  revert seen. induction l as [|y l IH]; intros seen; simpl.
  - split; [constructor|]. intros x. split; [by intros ?%elem_of_nil | by intros [?%elem_of_nil _]].
  - destruct (existsb (eqb y) seen) eqn:Hy.
    + apply existsb_eqb_elem_of in Hy. destruct (IH seen) as [Hnd Hiff].
      split; [done|]. intros x. rewrite Hiff, elem_of_cons.
      split; [tauto|]. intros [[->|?] ?]; [done | tauto].
    + assert (Hy' : y ∉ seen).
      { intros Hin%existsb_eqb_elem_of. congruence. }
      destruct (IH (seen ++ [y])) as [Hnd Hiff]. split.
      * apply NoDup_cons. split; [|done]. rewrite Hiff, elem_of_app.
        intros [_ Hn]. apply Hn. right. apply list_elem_of_here.
      * intros x. rewrite !elem_of_cons, Hiff, elem_of_app, list_elem_of_singleton.
        split.
        -- intros [->|[? ?]]; [tauto|]. split; [tauto|]. tauto.
        -- intros [[->|?] ?]; [tauto|].
           destruct (existsb (eqb x) [y]) eqn:Hxy.
           ++ left. apply existsb_eqb_elem_of, list_elem_of_singleton in Hxy. done.
           ++ right. split; [done|]. intros [?| ->]; [done|].
              simpl in Hxy. rewrite (proj2 (eqb_eq y y) eq_refl) in Hxy. done.
Qed.

Lemma set_spread_NoDup (l : list A) : NoDup (set_spread eqb l).
Proof. apply set_spread_from_spec. Qed.

Lemma set_spread_elem_of (l : list A) (x : A) : x ∈ set_spread eqb l ↔ x ∈ l.
Proof.
  unfold set_spread. rewrite (proj2 (set_spread_from_spec [] l)).
  split; [tauto|]. intros ?. split; [done | apply not_elem_of_nil].
Qed.

End SetSpread.

Lemma string_eqb_eq (x y : string) : String.eqb x y = true ↔ x = y.
Proof. apply String.eqb_eq. Qed.

(** ** The schema metrics *)

Lemma tally_group_cases (tl : tally) (g : group) :
  schema g ≠ JNull →
  tally_group tl g
  = Ret (if counted g then
           {| tally_all := tally_all tl ++ property_names g;
              tally_properties :=
                (tally_properties tl + N.of_nat (length (property_names g)))%N;
              tally_max := N.max (tally_max tl) (N.of_nat (length (property_names g)));
              tally_min := N.min (tally_min tl) (N.of_nat (length (property_names g))) |}
         else tl).
Proof.
  intros Hnn. unfold tally_group, counted. rewrite (get_not_null _ _ Hnn). run_outcome.
  by destruct (is_string (prop (schema g) "type") "object" && _).
Qed.

Lemma tally_groups_throws (tl : tally) (groups : list group) (g : group) :
  g ∈ groups → schema g = JNull → ∃ e, tally_groups tl groups = Throw e.
Proof.
  intros Hg Hnull. revert tl. induction groups as [|g' groups IH]; intros tl.
  { by apply elem_of_nil in Hg. }
  simpl. apply elem_of_cons in Hg as [<-|Hg].
  - unfold tally_group. rewrite Hnull. by eexists.
  - destruct (tally_group tl g') as [tl'|e]; simpl; [by apply IH | by eexists].
Qed.

Lemma tally_groups_spec (tl : tally) (groups : list group) :
  Forall (λ g, schema g ≠ JNull) groups →
  ∃ tl', tally_groups tl groups = Ret tl'
    ∧ tally_all tl' = tally_all tl ++ (filter counted groups ≫= property_names)
    ∧ tally_properties tl'
      = (tally_properties tl
         + N.of_nat (length (filter counted groups ≫= property_names)))%N
    ∧ (tally_max tl'
       ≤ N.max (tally_max tl)
               (N.of_nat (length (filter counted groups ≫= property_names))))%N
    ∧ (tally_max tl ≤ tally_max tl')%N
    ∧ (tally_min tl' ≤ tally_min tl)%N
    ∧ (tally_min tl' = tally_min tl ∨ tally_min tl' ≤ tally_max tl')%N
    ∧ ∀ g, g ∈ groups → counted g = true →
        (tally_min tl' ≤ N.of_nat (length (property_names g))
         ∧ N.of_nat (length (property_names g)) ≤ tally_max tl')%N.
Proof.
  intros Hnn. revert tl. induction Hnn as [|g groups Hg _ IH]; intros tl.
  - exists tl. simpl. rewrite app_nil_r.
    split_and!; [done | done | lia | lia | lia | lia | by left |].
    by intros g ?%elem_of_nil.
  - simpl. rewrite (tally_group_cases tl g Hg). run_outcome.
    destruct (counted g) eqn:Hc.
    + rewrite filter_cons_True by (by rewrite Hc). rewrite bind_cons.
      destruct (IH {| tally_all := tally_all tl ++ property_names g;
                      tally_properties :=
                        (tally_properties tl + N.of_nat (length (property_names g)))%N;
                      tally_max := N.max (tally_max tl) (N.of_nat (length (property_names g)));
                      tally_min := N.min (tally_min tl) (N.of_nat (length (property_names g))) |})
        as (tl' & Hrun & Hall & Hprops & Hmaxle & Hmaxge & Hminle & Hmin & Hbounds).
      simpl in *. exists tl'.
      split_and!; [done | by rewrite Hall, (assoc_L (++)) | | | | | |].
      * rewrite Hprops, length_app. lia.
      * rewrite length_app. lia.
      * lia.
      * lia.
      * destruct Hmin as [Heq|Hle]; [|right; exact Hle].
        rewrite Heq.
        destruct (N.min_spec (tally_min tl) (N.of_nat (length (property_names g))))
          as [[_ ->]|[_ ->]]; [by left | right; lia].
      * intros g' [->|Hg']%elem_of_cons Hc'; [lia | by apply Hbounds].
    + rewrite filter_cons_False by (rewrite Hc; exact id).
      destruct (IH tl)
        as (tl' & Hrun & Hall & Hprops & Hmaxle & Hmaxge & Hminle & Hmin & Hbounds).
      exists tl'. split_and!; [done..|].
      intros g' [->|Hg']%elem_of_cons Hc'; [congruence | by apply Hbounds].
Qed.

(** For a document and groups that are not [null]-valued the schema
    metrics are computed and agree with one another: [properties] is the
    number of property names over the counted groups (those of type
    ["object"] with truthy [properties]), every counted group has between
    [min_properties] and [max_properties] of them, [max_properties] is at
    most [properties], and [distinct_properties] lists each of those names
    once. A group with a [null] representative makes the function throw. *)
Theorem schema_metrics_agree (api : json) (groupedSchemas : list group) :
  api ≠ JNull →
  (Forall (λ g, schema g ≠ JNull) groupedSchemas →
   ∃ r, calculateSchemaSize api groupedSchemas = Ret r
     ∧ used_schemas r = N.of_nat (length groupedSchemas)
     ∧ properties r
       = N.of_nat (length (filter counted groupedSchemas ≫= property_names))
     ∧ (min_properties r ≤ max_properties r ≤ properties r)%N
     ∧ (∀ g, g ∈ groupedSchemas → counted g = true →
          (min_properties r ≤ N.of_nat (length (property_names g))
           ≤ max_properties r)%N)
     ∧ NoDup (distinct_properties r)
     ∧ (N.of_nat (length (distinct_properties r)) ≤ properties r)%N
     ∧ (∀ x, x ∈ distinct_properties r
             ↔ ∃ g, g ∈ groupedSchemas ∧ counted g = true ∧ x ∈ property_names g))
  ∧ (∀ g, g ∈ groupedSchemas → schema g = JNull →
          ∃ e, calculateSchemaSize api groupedSchemas = Throw e).
Proof.
  intros Hapi. unfold calculateSchemaSize. rewrite (get_not_null api _ Hapi). run_outcome.
  split.
  - intros Hnn.
    destruct (tally_groups_spec
                {| tally_all := []; tally_properties := 0;
                   tally_max := 0; tally_min := MAX_SAFE_INTEGER |}
                groupedSchemas Hnn)
      as (tl & -> & Hall & Hprops & Hmaxle & _ & _ & Hmin & Hbounds).
    simpl in *. run_outcome. eexists. split; [reflexivity|]. simpl.
    split_and!.
    + done.
    + rewrite Hprops. lia.
    + destruct (N.eqb_spec (tally_min tl) MAX_SAFE_INTEGER); lia.
    + lia.
    + intros g Hg Hc. destruct (Hbounds g Hg Hc).
      destruct (N.eqb_spec (tally_min tl) MAX_SAFE_INTEGER); lia.
    + apply set_spread_NoDup, string_eqb_eq.
    + rewrite Hprops, <-Hall. unfold set_spread.
      pose proof (set_spread_from_length String.eqb [] (tally_all tl)). lia.
    + intros x. rewrite (set_spread_elem_of _ string_eqb_eq), Hall.
      rewrite list_elem_of_bind. split.
      * intros (g & Hx & [Hc Hg]%list_elem_of_filter).
        exists g. split_and!; [done | by apply Is_true_true | done].
      * intros (g & Hg & Hc & Hx). exists g. split; [done|].
        apply list_elem_of_filter. split; [by apply Is_true_true | done].
  - intros g Hg Hnull.
    destruct (tally_groups_throws
                {| tally_all := []; tally_properties := 0;
                   tally_max := 0; tally_min := MAX_SAFE_INTEGER |}
                groupedSchemas g Hg Hnull) as [e ->].
    by eexists.
Qed.

(** A sample of groups: an object schema with two properties, an array
    kept whole and an object without properties. *)
Lemma schema_metrics_agree_witness :
  let person := JObj [("type", JStr "object");
                      ("properties", JObj [("id", type_schema "integer");
                                           ("name", type_schema "string")])] in
  let groups := [ Group person [Endpoint "get" "/a" "200"] [Res];
                  Group (type_schema "string") [Endpoint "get" "/b" "200"] [Res];
                  Group (type_schema "object") [Endpoint "get" "/c" "200"] [Res] ] in
  calculateSchemaSize (JObj [("openapi", JStr "3.0.0")]) groups
  = Ret {| used_schemas := 3; defined_schemas := 0; properties := 2;
           max_properties := 2; min_properties := 2;
           distinct_properties := ["id"; "name"] |}.
Proof.
  intros person groups.
  destruct (schema_metrics_agree (JObj [("openapi", JStr "3.0.0")]) groups)
    as [Hreturns _]; [discriminate|].
  destruct Hreturns as (r & Hr & _); [repeat constructor; discriminate|].
  rewrite Hr. f_equal. vm_compute in Hr. by injection Hr.
Defined.

(** ** The structure metrics *)

Lemma foldl_invariant {A B} (P : A → Prop) (f : A → B → A) (l : list B) (a : A) :
  P a → (∀ a x, x ∈ l → P a → P (f a x)) → P (foldl f a l).
Proof.
  revert a. induction l as [|x l IH]; intros a Ha Hf; [done|].
  simpl. apply IH; [apply Hf; [by left | done]|].
  intros a' y Hy. apply Hf. by right.
Qed.

Lemma is_http_method_elem_of (s : string) :
  is_http_method s = true ↔ s ∈ HTTP_METHODS.
Proof. unfold is_http_method. apply (existsb_eqb_elem_of _ string_eqb_eq). Qed.

Lemma increment_keys (k : string) (counters : list (string * nat)) :
  (increment k counters).*1 = counters.*1.
Proof.
  unfold increment. rewrite <-list_fmap_compose. apply list_fmap_ext.
  intros _ [k' n] _. simpl. by destruct (String.eqb k' k).
Qed.

Lemma increment_absent (k : string) (counters : list (string * nat)) :
  k ∉ counters.*1 → increment k counters = counters.
Proof.
  induction counters as [|[k' n] counters IH]; [done|].
  rewrite fmap_cons, not_elem_of_cons. intros [Hne Hnot]. unfold increment in *.
  simpl in Hne. rewrite fmap_cons. simpl.
  destruct (String.eqb_spec k' k); [congruence|]. by rewrite IH.
Qed.

Lemma increment_sum (k : string) (counters : list (string * nat)) :
  NoDup counters.*1 → k ∈ counters.*1 →
  sum_list_with snd (increment k counters) = S (sum_list_with snd counters).
Proof.
  induction counters as [|[k' n] counters IH]; [by intros _ ?%elem_of_nil|].
  rewrite fmap_cons, NoDup_cons, elem_of_cons. cbn [fst]. intros [Hk' Hnd] Hk.
  change (increment k ((k', n) :: counters))
    with ((if String.eqb k' k then (k', S n) else (k', n)) :: increment k counters).
  destruct (String.eqb_spec k' k) as [->|Hne]; simpl.
  - by rewrite increment_absent.
  - destruct Hk as [->|Hk]; [done|]. rewrite IH by done. lia.
Qed.

Lemma visit_method_ok (p : string) (pathItem : json) (w : walk) (m : string) :
  walk_ok w → walk_ok (visit_method p pathItem w m).
Proof.
  intros [Hkeys Hsum]. unfold visit_method.
  destruct (is_http_method (toLowerCase m)) eqn:Hm; [|done].
  apply is_http_method_elem_of in Hm. split; simpl.
  - by rewrite increment_keys.
  - rewrite increment_sum, length_app; simpl; [lia | |by rewrite Hkeys].
    rewrite Hkeys. apply (bool_decide_unpack _). exact I.
Qed.

Lemma visit_path_ok (pathsObj : json) (w : walk) (p : string) :
  walk_ok w → walk_ok (visit_path pathsObj w p).
Proof.
  intros Hw. unfold visit_path. destruct (prop pathsObj p) as [pathItem|]; [|done].
  apply foldl_invariant; [done|]. intros w' m _. apply visit_method_ok.
Qed.

Lemma visit_method_operations (p : string) (pathItem : json) (w : walk) (ms : list string) :
  walk_operations (foldl (visit_method p pathItem) w ms)
  = walk_operations w
    ++ (pair p <$> filter (λ m, is_http_method (toLowerCase m)) ms).
Proof.
  revert w. induction ms as [|m ms IH]; intros w; simpl; [by rewrite app_nil_r|].
  rewrite IH. unfold visit_method.
  destruct (is_http_method (toLowerCase m)) eqn:Hm.
  - rewrite filter_cons_True by (by rewrite Hm). simpl. by rewrite <-(assoc_L (++)).
  - by rewrite filter_cons_False by (rewrite Hm; exact id).
Qed.

Lemma visit_path_operations (pathsObj : json) (w : walk) (ks : list (string * json)) :
  Forall (λ pm, prop pathsObj pm.1 = Some pm.2) ks →
  walk_operations (foldl (visit_path pathsObj) w ks.*1)
  = walk_operations w ++ (ks ≫= operations_of_path).
Proof.
  intros Hks. revert w. induction Hks as [|[p pathItem] ks Hp _ IH]; intros w.
  - simpl. by rewrite app_nil_r.
  - assert (Hstep : walk_operations (visit_path pathsObj w p)
                    = walk_operations w ++ operations_of_path (p, pathItem)).
    { unfold visit_path. simpl in Hp. rewrite Hp. apply visit_method_operations. }
    rewrite fmap_cons, bind_cons. cbn [foldl fst]. rewrite IH, Hstep.
    by rewrite <-(assoc_L (++)).
Qed.

(** For a document that is not [null] the structure metrics are computed
    and agree with one another. [parametered_operations] and
    [used_parameters] are both the number of parameters collected;
    [used_methods] is at most [operations]; [distinct_parameters] has at most
    [used_parameters] entries; the quotient is replaced by zero exactly when
    no parameter was collected. With truthy [paths], [methods] names the
    eight HTTP methods, its counters add up to [operations], and with distinct
    path keys [operations] counts every key whose lower case is an HTTP
    method. With falsy [paths] everything but [webhooks] is zero and
    [methods] stays empty. *)
Theorem structure_metrics_agree (api : json) :
  api ≠ JNull →
  ∃ r, calculateStructureSize api = Ret r
    ∧ parametered_operations r = used_parameters r
    ∧ (used_methods r ≤ operations r)%nat
    ∧ (length (distinct_parameters r) ≤ used_parameters r)%nat
    ∧ (parameters_per_operations r = NoRatio ↔ used_parameters r = 0)
    ∧ webhooks r = (if truthy (prop api "webhooks")
                    then length (entries_of (prop api "webhooks")) else 0)
    ∧ (truthy (prop api "paths") = true →
       paths r = length (entries_of (prop api "paths"))
       ∧ (methods r).*1 = HTTP_METHODS
       ∧ sum_list_with snd (methods r) = operations r
       ∧ (NoDup (entries_of (prop api "paths")).*1 →
          operations r
          = length (entries_of (prop api "paths") ≫= operations_of_path)))
    ∧ (truthy (prop api "paths") = false →
       r = StructureSize 0 0 (webhooks r) 0 0 [] NoRatio 0 []).
Proof.
  intros Hapi. unfold calculateStructureSize.
  rewrite !(get_not_null api _ Hapi). run_outcome.
  eexists. split; [reflexivity|].
  destruct (prop api "paths") as [pathsObj|] eqn:Hpaths; cycle 1.
  { simpl. split_and!; try done; lia. }
  destruct (truthy (Some pathsObj)) eqn:Htruthy; cycle 1.
  { simpl. split_and!; try done; lia. }
  set (w := foldl (visit_path pathsObj) _ _).
  assert (Hok : walk_ok w).
  { apply foldl_invariant; [by split|]. intros w' p _. apply visit_path_ok. }
  destruct Hok as [Hkeys Hsum]. cbn [paths operations webhooks used_methods
    parametered_operations distinct_parameters parameters_per_operations
    used_parameters methods entries_of].
  split_and!.
  - done.
  - unfold set_spread. etrans; [apply set_spread_from_length|].
    by rewrite !length_fmap.
  - unfold set_spread. etrans; [apply set_spread_from_length|].
    by rewrite length_fmap.
  - unfold ratio_or_zero. by destruct (length (walk_parameters w)).
  - done.
  - intros _. split_and!; [done..|].
    intros Hnd. subst w. rewrite visit_path_operations; [done|].
    apply Forall_forall. intros [p pathItem] Hin. simpl.
    by apply assoc_NoDup.
  - done.
Qed.

(** A document with one path that has a path-level [parameters] entry, an
    operation with two parameters and an operation whose key is in upper
    case. *)
Lemma structure_metrics_agree_witness :
  let api :=
    JObj [("openapi", JStr "3.0.0");
          ("paths",
           JObj [("/a", JObj [("parameters", JArr [JObj [("name", JStr "id")]]);
                              ("get", JObj [("parameters",
                                             JArr [JObj [("name", JStr "id")];
                                                   JObj [("name", JStr "q")]])]);
                              ("POST", JObj [])])])] in
  calculateStructureSize api
  = Ret {| paths := 1; operations := 2; webhooks := 0; used_methods := 2;
           parametered_operations := 2;
           distinct_parameters := [Some (JStr "id"); Some (JStr "q")];
           parameters_per_operations := Ratio 2 2;
           used_parameters := 2;
           methods := [("get", 1); ("put", 0); ("post", 1); ("delete", 0);
                       ("options", 0); ("head", 0); ("patch", 0); ("trace", 0)] |}.
Proof.
  intros api.
  destruct (structure_metrics_agree api) as (r & Hr & _); [discriminate|].
  rewrite Hr. f_equal. vm_compute in Hr. by injection Hr.
Defined.

(** ** The metrics of a grouping *)

Lemma calculateStructureSize_returns (api : json) :
  api ≠ JNull → ∃ r, calculateStructureSize api = Ret r.
Proof.
  intros Hapi. unfold calculateStructureSize.
  rewrite !(get_not_null api _ Hapi). run_outcome. by eexists.
Qed.

Lemma calculateSchemaSize_returns (api : json) (groups : list group) :
  api ≠ JNull →
  Forall (λ g, schema g ≠ JNull) groups →
  ∃ r, calculateSchemaSize api groups = Ret r
       ∧ used_schemas r = N.of_nat (length groups).
Proof.
  intros Hapi Hnn. unfold calculateSchemaSize.
  rewrite (get_not_null api _ Hapi). run_outcome.
  destruct (tally_groups_spec
              {| tally_all := []; tally_properties := 0;
                 tally_max := 0; tally_min := MAX_SAFE_INTEGER |} groups Hnn)
    as (tl & -> & _).
  run_outcome. by eexists.
Qed.

Section MetricsOfGrouping.

Variable compare : json → json → outcome bool.
Variable convertObj : json → outcome jsval.

Lemma groupBySchema_schema_not_null (array : list item) :
  Forall (λ g, schema g ≠ JNull) (groupBySchema compare array).
Proof.
  apply groupBySchema_invariant; [constructor|].
  intros t grouped it Hit Hok. unfold process_item.
  destruct (findSimilarSchema compare grouped (currentSchema t it))
    as [[[i g]|]|e]; simpl; [| |done].
  - apply Forall_alter; [done|]. by intros g' _ Hg'.
  - unfold addNewSchema. apply Forall_app. split; [done|].
    apply Forall_singleton. simpl. apply selected_elem_of in Hit as [_ Ht].
    apply currentSchema_truthy in Ht. by intros Heq; rewrite Heq in Ht.
Qed.

Lemma groupBySchema_length_bound (array : list item) :
  (length (groupBySchema compare array)
   ≤ length (selected Res array) + length (selected Req array))%nat.
Proof.
  assert (Hrun : ∀ t items st,
            (length (run_items compare t items st).1 ≤ length st.1 + length items)%nat).
  { intros t items. induction items as [|it items IH]; intros st; [simpl; lia|].
    rewrite run_items_cons. etrans; [apply IH|]. simpl. unfold process_item.
    destruct (findSimilarSchema compare st.1 (currentSchema t it))
      as [[[i g]|]|e]; simpl.
    - rewrite length_alter. lia.
    - unfold addNewSchema. rewrite length_app. simpl. lia.
    - lia. }
  unfold groupBySchema, groupBySchema_run, processType.
  etrans; [apply Hrun|].
  pose proof (Hrun Res (selected Res array) ([], [])) as H0. simpl in H0. lia.
Qed.

(** The schema metrics of a grouping are always computed: no
    representative that [groupBySchema] produces makes [calculateSchemaSize]
    throw, and [used_schemas] is at most the number of occurrences. *)
Theorem schema_metrics_of_a_grouping (api : json) (array : list item) :
  api ≠ JNull →
  ∃ r, calculateSchemaSize api (groupBySchema compare array) = Ret r
    ∧ used_schemas r = N.of_nat (length (groupBySchema compare array))
    ∧ (used_schemas r
       ≤ N.of_nat (length (selected Res array) + length (selected Req array)))%N.
Proof.
  intros Hapi.
  destruct (calculateSchemaSize_returns api (groupBySchema compare array) Hapi
              (groupBySchema_schema_not_null array)) as (r & Hr & Hused).
  exists r. split_and!; [done..|]. rewrite Hused.
  pose proof (groupBySchema_length_bound array). lia.
Qed.

(** [computeSizeMetrics] throws exactly when [extractSchemas] returns
    [null]; otherwise it returns the structure metrics of the document as
    given and the schema metrics of the grouping of the extracted items. *)
Theorem computeSizeMetrics_outcomes (openAPISpec : json) :
  (extractSchemas convertObj openAPISpec = None →
   computeSizeMetrics compare convertObj openAPISpec = Throw TypeError)
  ∧ (∀ r, extractSchemas convertObj openAPISpec = Some r →
       ∃ structure size,
         computeSizeMetrics compare convertObj openAPISpec = Ret (structure, size)
         ∧ calculateStructureSize openAPISpec = Ret structure
         ∧ calculateSchemaSize openAPISpec (groupBySchema compare (@schemas r)) = Ret size
         ∧ used_schemas size = N.of_nat (length (groupBySchema compare (@schemas r)))).
Proof.
  unfold computeSizeMetrics. split; [by intros ->|].
  intros r Hr. rewrite Hr.
  assert (Hnn : openAPISpec ≠ JNull).
  { intros ->. by vm_compute in Hr. }
  destruct (calculateStructureSize_returns openAPISpec Hnn) as [structure Hs].
  destruct (calculateSchemaSize_returns openAPISpec
              (groupBySchema compare (@schemas r)) Hnn
              (groupBySchema_schema_not_null (@schemas r)))
    as (size & Hz & Hused).
  exists structure, size. rewrite Hs, Hz. by run_outcome.
Qed.

End MetricsOfGrouping.

(** The grouping of the two-path sample, measured. *)
Lemma schema_metrics_of_a_grouping_witness :
  let array :=
    [ sample_item "/users" "get" "200" (Some (json_body (type_schema "object"))) None;
      sample_item "/admins" "get" "200"
                  (Some (json_body (array_of (type_schema "object")))) None ] in
  ∃ r, calculateSchemaSize (JObj []) (groupBySchema strict_compare array) = Ret r
    ∧ used_schemas r = N.of_nat (length (groupBySchema strict_compare array))
    ∧ (used_schemas r
       ≤ N.of_nat (length (selected Res array) + length (selected Req array)))%N.
Proof.
  intros array.
  apply (schema_metrics_of_a_grouping strict_compare (JObj []) array). discriminate.
Defined.

(** ** From the document to the groups *)

Section Pipeline.

Variable compare : json → json → outcome bool.
Variable convertObj : json → outcome jsval.

Lemma groupBySchema_responses_only (array : list item) :
  (groupBySchema_run compare array).2 = [] →
  selected Req array = [] →
  NoDup (endpoint_of <$> selected Res array) →
  all_endpoints (groupBySchema compare array) ≡ₚ endpoint_of <$> selected Res array.
Proof.
  intros Hquiet Hreq Hnd.
  pose proof (groupBySchema_request_free compare array Hreq) as Htag.
  rewrite <-(tagged_endpoints_single_tag Res _ Htag).
  apply groupBySchema_tagged_exact; [done | | done].
  eapply Forall_impl; [apply Htag|]. intros g Hg. by left.
Qed.

(** End to end, for a document of the current version whose [paths] has
    distinct keys and no [null] path item: the extraction returns the harvested
    items with the document itself as [converted], and the size metrics are
    computed on their grouping. When the grouping prints no error, the groups
    that carry a direction tag hold exactly the (path, method, code) triples of
    the occurrences of that direction, each once, provided no group carries
    both tags; in particular, when no operation has a request body with a JSON
    schema, the endpoint entries of the groups are exactly the triples of the
    responses that have a JSON schema. *)
Theorem responses_of_a_document_are_covered (doc paths : json) :
  truthy (prop doc "openapi") = true →
  prop doc "paths" = Some paths →
  paths ≠ JNull →
  distinct_keys paths →
  Forall (λ pm, pm.2 ≠ JNull) (own_entries paths) →
  extractSchemas convertObj doc
    = Some {| schemas := emitted paths; converted := Some doc |}
  ∧ computeSizeMetrics_groupedSchemas compare convertObj doc
    = Ret (groupBySchema compare (emitted paths))
  ∧ ((groupBySchema_run compare (emitted paths)).2 = [] →
     (∀ t, unmixed (groupBySchema compare (emitted paths)) →
           tagged_endpoints t (groupBySchema compare (emitted paths))
           ≡ₚ endpoint_of <$> selected t (emitted paths))
     ∧ (selected Req (emitted paths) = [] →
        all_endpoints (groupBySchema compare (emitted paths))
        ≡ₚ endpoint_of <$> selected Res (emitted paths))).
Proof.
  intros Hmarker Hpaths Hnn Hkeys Hitems.
  assert (Hdoc : doc ≠ JNull) by (by intros ->).
  assert (Hspec : get (Some doc) "paths" = Ret (Some paths)).
  { by rewrite (get_not_null doc _ Hdoc), Hpaths. }
  assert (Hharvest : harvest (Some doc) = Ret (emitted paths)).
  { unfold harvest. rewrite Hspec. run_outcome.
    rewrite (Object_entries_not_null paths Hnn). run_outcome.
    rewrite (mapM_Ret_in _ emitted_of_path).
    - run_outcome. by rewrite concat_fmap_bind.
    - intros pm Hpm.
      apply (path_items_emitted (Some doc) paths Hspec Hnn); [done | apply Hkeys |].
      by apply (proj1 (Forall_forall _ _) Hitems). }
  assert (Hextract : extractSchemas convertObj doc
                     = Some {| schemas := emitted paths; converted := Some doc |}).
  { apply extractSchemas_current; [by apply normalize_marker | done]. }
  assert (Hnd : ∀ t, NoDup (endpoint_of <$> selected t (emitted paths))).
  { intros t. eapply sublist_NoDup; [by apply (emitted_NoDup paths)|].
    apply fmap_sublist. unfold selected. apply sublist_filter. }
  split_and!.
  - done.
  - unfold computeSizeMetrics_groupedSchemas. by rewrite Hextract.
  - intros Hquiet. split.
    + intros t Hsep. by apply groupBySchema_tagged_exact.
    + intros Hreq. by apply groupBySchema_responses_only.
Qed.

End Pipeline.

(** Two paths that return the same object, one of them in an array, and
    an operation that takes a string; the comparator is one that throws on what
    is not a schema. *)
Lemma responses_of_a_document_are_covered_witness :
  let paths :=
    JObj [("/users", JObj [("get", JObj [("responses",
             JObj [("200", json_body (type_schema "object"))])]);
                           ("post", JObj [("requestBody", json_body (type_schema "string"));
                                          ("responses",
             JObj [("201", json_body (type_schema "object"))])])]);
          ("/admins", JObj [("get", JObj [("responses",
             JObj [("200", json_body (array_of (type_schema "object")));
                   ("404", JObj [])])])])] in
  let doc := JObj [("openapi", JStr "3.0.0"); ("paths", paths)] in
  extractSchemas rejecting_convertObj doc
    = Some {| schemas := emitted paths; converted := Some doc |}
  ∧ computeSizeMetrics_groupedSchemas guarded_compare rejecting_convertObj doc
    = Ret (groupBySchema guarded_compare (emitted paths))
  ∧ ((groupBySchema_run guarded_compare (emitted paths)).2 = [] →
     (∀ t, unmixed (groupBySchema guarded_compare (emitted paths)) →
           tagged_endpoints t (groupBySchema guarded_compare (emitted paths))
           ≡ₚ endpoint_of <$> selected t (emitted paths))
     ∧ (selected Req (emitted paths) = [] →
        all_endpoints (groupBySchema guarded_compare (emitted paths))
        ≡ₚ endpoint_of <$> selected Res (emitted paths))).
Proof.
  intros paths doc.
  apply (responses_of_a_document_are_covered guarded_compare rejecting_convertObj doc paths).
  - reflexivity.
  - reflexivity.
  - discriminate.
  - apply (bool_decide_unpack _). exact I.
  - repeat constructor; discriminate.
Defined.
